(** * hackernews/client.py: the recursive fetch-and-expand of HN items

    A shallow embedding of [async_fetch_url], [async_fetch_urls],
    [fetch_urls], [get_user_items] and the command line, and the
    properties of the expansion order, of error propagation, of absent
    and malformed items, and of the budget. *)

From Stdlib Require Import List String Ascii ZArith Bool Lia DecimalString.
From Stdlib Require DecimalPos DecimalZ.
Import ListNotations.
Local Open Scope string_scope.
Local Open Scope Z_scope.

Local Set Warnings "-register-all".

(** ** Data *)

(** The value [response.json()] yields.  Text has one [ascii] per
    character, numbers are the integers of the HN API, and a dict is the
    list of its (key, value) pairs in insertion order, keys distinct. *)
Inductive json : Type :=
| JNull
| JBool (b : bool)
| JNum (n : Z)
| JStr (s : string)
| JArr (l : list json)
| JObj (o : list (string * json)).

(** What the code can raise: the three failures of one fetch
    ([async_timeout.timeout], the aiohttp session, [response.json()]),
    the two Python errors of lines 42-43 on an item that is not a dict
    or whose child field cannot be iterated, and the error of
    [run_until_complete] on an event loop that was closed. *)
Inductive Exn : Type :=
| TimeoutError
| TransportError
| ParseError
| AttributeError
| TypeError
| RuntimeError.

(** Python truth value, as tested by [if item:], [or] and [if urls:]. *)
Definition truthy (j : json) : bool :=
  match j with
  | JNull => false
  | JBool b => b
  | JNum n => negb (n =? 0)
  | JStr s => negb (String.eqb s "")
  | JArr [] | JObj [] => false
  | JArr (_ :: _) | JObj (_ :: _) => true
  end.

(** [a or b] *)
Definition py_or (a b : json) : json := if truthy a then a else b.

(** [d.get(k)] on a dict: the value, [None] when the key is missing. *)
Fixpoint dict_get (k : string) (o : list (string * json)) : json :=
  match o with
  | [] => JNull
  | (k', v) :: o' => if String.eqb k k' then v else dict_get k o'
  end.

Fixpoint chars (s : string) : list json :=
  match s with
  | EmptyString => []
  | String c s' => JStr (String c EmptyString) :: chars s'
  end.

(** [for kid in kids]: a list gives its elements, a str its characters, a
    dict its keys; numbers and [True] are not iterable.  ([None] and
    [False] are not iterable either; line 42 never yields them.) *)
Definition py_iter (kids : json) : Exn + list json :=
  match kids with
  | JArr l => inr l
  | JStr s => inr (chars s)
  | JObj o => inr (map (fun kv => JStr (fst kv)) o)
  | JNull | JBool _ | JNum _ => inl TypeError
  end.

(** ** The monad of the coroutine: a log of the requests issued, and a
    result or the exception raised *)

Definition M (A : Type) : Type := (list string * (Exn + A))%type.

Definition ret {A} (a : A) : M A := ([], inr a).

Definition bind {A B} (m : M A) (f : A -> M B) : M B :=
  match m with
  | (l, inl e) => (l, inl e)
  | (l, inr a) => let (l', r) := f a in ((l ++ l')%list, r)
  end.

Definition lift {A} (r : Exn + A) : M A := ([], r).

Notation "x <- m ;; k" := (bind m (fun x => k))
  (at level 61, m at next level, right associativity).

Definition requests {A} (m : M A) : list string := fst m.
Definition outcome {A} (m : M A) : Exn + A := snd m.

(** ** The program *)

Definition ITEM_URL_format (kid : string) : string :=
  "https://hacker-news.firebaseio.com/v0/item/" ++ kid ++ ".json".

Definition USER_URL_format (username : string) : string :=
  "https://hacker-news.firebaseio.com/v0/user/" ++ username ++ ".json".

(** Python's [str] on an identifier of the HN API: an integer in decimal,
    a string as it is. *)
Definition str_of_id (kid : json) : option string :=
  match kid with
  | JNum n => Some (NilZero.string_of_int (Z.to_int n))
  | JStr s => Some s
  | _ => None
  end.

Fixpoint ok_values {A} (rs : list (Exn + A)) : list A :=
  match rs with
  | [] => []
  | inr a :: rs' => a :: ok_values rs'
  | inl _ :: rs' => ok_values rs'
  end.

Fixpoint raised {A} (rs : list (Exn + A)) : list Exn :=
  match rs with
  | [] => []
  | inl e :: rs' => e :: raised rs'
  | inr _ :: rs' => raised rs'
  end.

Section Client.

(** The remote store: what [async_fetch_url] gives for a url, the parsed
    body or the exception of the request. *)
Variable async_fetch_url : string -> Exn + json.

(** [str.format] on a child identifier that is neither an integer nor a
    string (Python's rendering of [None], booleans, lists and dicts). *)
Variable str_other : json -> string.

(** Which of the exceptions of one level (in task order) is raised
    first in time: [asyncio.gather] propagates that one. *)
Variable first_raised : Exn -> list Exn -> Exn.

Definition py_str (kid : json) : string :=
  match str_of_id kid with
  | Some s => s
  | None => str_other kid
  end.

(** Lines 35-37: a task per url, then the join. *)
Definition gather (urls : list string) : M (list json) :=
  let rs := map async_fetch_url urls in
  (urls, match raised rs with
         | [] => inr (ok_values rs)
         | e :: es => inl (first_raised e es)
         end).

(** Lines 42-43, for an item that passed [if item:]. *)
Definition child_urls (item : json) : Exn + list string :=
  match item with
  | JObj o =>
      let kids := py_or (dict_get "kids" o)
                    (py_or (dict_get "submitted" o) (JArr [])) in
      match py_iter kids with
      | inr ks => inr (map (fun kid => ITEM_URL_format (py_str kid)) ks)
      | inl e => inl e
      end
  | _ => inl AttributeError
  end.

(** Lines 40-51: the loop over the batch, [new_items] as accumulator,
    [rec] the recursive call with [recursive - 1]. *)
Fixpoint expand_items (rec : list string -> M (list json))
         (new_items : list json) (items : list json) : M (list json) :=
  match items with
  | [] => ret new_items
  | item :: rest =>
      if truthy item then
        urls <- lift (child_urls item) ;;
        match urls with
        | [] => expand_items rec new_items rest
        | _ :: _ =>
            sub <- rec urls ;;
            expand_items rec (new_items ++ sub)%list rest
        end
      else expand_items rec new_items rest
  end.

(** Lines 35-53, by the number of levels still to dig. *)
Fixpoint expand (depth : nat) (urls : list string) : M (list json) :=
  items <- gather urls ;;
  match depth with
  | O => ret items
  | S d =>
      new_items <- expand_items (expand d) [] items ;;
      ret (items ++ new_items)%list
  end.

Definition async_fetch_urls (urls : list string) (recursive : Z)
  : M (list json) :=
  expand (Z.to_nat recursive) urls.

(** Lines 55-73.  The calls of one process share the event loop that
    [asyncio.get_event_loop()] gives; [loop_closed] says whether an
    earlier call closed it, and the first component of the result whether
    it is closed afterwards.  On a closed loop [run_until_complete]
    raises before the coroutine starts; otherwise the loop runs the
    coroutine to its end, and line 72 closes the loop when the coroutine
    returned: an exception leaves the function at line 69. *)
Definition fetch_urls (loop_closed : bool) (urls : list string)
  (recursive : Z) : bool * M (list json) :=
  if loop_closed then (true, ([], inl RuntimeError))
  else
    let call := async_fetch_urls urls recursive in
    match outcome call with
    | inr _ => (true, call)
    | inl _ => (false, call)
    end.

(** Lines 75-86. *)
Definition get_user_items (loop_closed : bool) (username : string)
  (recursive : Z) : bool * M (list json) :=
  fetch_urls loop_closed [USER_URL_format username] recursive.

(** Lines 105-107, on the parsed arguments: the lines printed.  [author]
    is [None] without [--author]; [--verbose] only sets the log level.
    The script is the first to use the event loop of its process. *)
Definition main (author : option string) (recursive : Z)
  : M (list string) :=
  match author with
  | Some name =>
      if String.eqb name "" then ret []
      else
        data <- snd (get_user_items false name recursive) ;;
        ret ["fetched "
             ++ NilZero.string_of_uint (Nat.to_uint (List.length data))
             ++ " posts"]
  | None => ret []
  end.

End Client.

(** ** Definitions the statements use *)

(** A child-list field read as a sequence: its elements, nothing when the
    key is missing (or null), [None] when it holds something else. *)
Definition list_field (k : string) (o : list (string * json))
  : option (list json) :=
  match dict_get k o with
  | JArr l => Some l
  | JNull => Some []
  | _ => None
  end.

Definition first_non_empty (a b : list json) : list json :=
  match a with
  | [] => b
  | _ :: _ => a
  end.

(** The fetch of [u] succeeds and gives [j]. *)
Definition fetched (fetch : string -> Exn + json) (u : string) (j : json)
  : Prop :=
  fetch u = inr j.

(** The fetch of [u] gives some body, no exception. *)
Definition answered (fetch : string -> Exn + json) (u : string) : Prop :=
  exists j, fetch u = inr j.

(** An item that is absent, or whose two child fields are missing or
    empty. *)
Definition childless (item : json) : bool :=
  negb (truthy item)
  || match item with
     | JObj o => negb (truthy (dict_get "kids" o))
                 && negb (truthy (dict_get "submitted" o))
     | _ => false
     end.

(** What one item of the batch adds in the loop of lines 40-51: the
    requests [fst p] and the items [snd p] of the recursive call on its
    child urls, when it has some. *)
Definition expands_to (str_other : json -> string)
  (rec : list string -> M (list json)) (item : json)
  (p : list string * list json) : Prop :=
  if truthy item then
    exists cs, child_urls str_other item = inr cs /\
      match cs with
      | [] => p = ([], [])
      | _ :: _ => rec cs = (fst p, inr (snd p))
      end
  else p = ([], []).

Section LevelOrder.

Variable async_fetch_url : string -> Exn + json.
Variable str_other : json -> string.
Variable first_raised : Exn -> list Exn -> Exn.

(** The expansion as section 4.2 of the specification words it (steps 4
    and 5): the children sequences of all the items of a batch,
    concatenated into one next-level sequence. *)
Fixpoint next_level (items : list json) : Exn + list string :=
  match items with
  | [] => inr []
  | item :: rest =>
      if truthy item then
        match child_urls str_other item with
        | inl e => inl e
        | inr cs =>
            match next_level rest with
            | inl e => inl e
            | inr more => inr (cs ++ more)%list
            end
        end
      else next_level rest
  end.

(** Steps 1 to 7 of the specification: one recursive expansion of the
    whole next level. *)
Fixpoint level_order_expand (budget : nat) (urls : list string)
  : M (list json) :=
  items <- gather async_fetch_url first_raised urls ;;
  match budget with
  | O => ret items
  | S b =>
      next <- lift (next_level items) ;;
      match next with
      | [] => ret items
      | _ :: _ =>
          deeper <- level_order_expand b next ;;
          ret (items ++ deeper)%list
      end
  end.

End LevelOrder.

(** One occurrence of a url in an input sequence, with what the call on
    that url alone does: the requests after the one for the url, the item
    fetched, and the items of its expansion. *)
Record occurrence : Type := {
  occ_url : string;
  occ_requests : list string;
  occ_item : json;
  occ_items : list json
}.

(** One item fetched by a request of [seen] is truthy and its child
    urls (or the error of lines 42-43) are [r]. *)
Definition parent_in (fetch : string -> Exn + json)
  (str_other : json -> string) (seen : list string)
  (r : Exn + list string) : Prop :=
  exists u item,
    In u seen /\ fetch u = inr item /\ truthy item = true /\
    child_urls str_other item = r.

(** The join of the batch [l2] raises [e]. *)
Definition batch_fails (fetch : string -> Exn + json)
  (first_raised : Exn -> list Exn -> Exn) (l2 : list string) (e : Exn)
  : Prop :=
  exists e0 es, raised (map fetch l2) = e0 :: es /\ e = first_raised e0 es.

(** The requests [log] issued inside the loop of lines 40-51 when it
    raised [e], after the requests [prior]: requests [l1] that answered,
    and last either the child urls [l2] of an item fetched before, whose
    join raised [e], or nothing, [e] being the error of a malformed
    item fetched before. *)
Definition stopped_after (fetch : string -> Exn + json)
  (str_other : json -> string) (first_raised : Exn -> list Exn -> Exn)
  (prior log : list string) (e : Exn) : Prop :=
  exists l1 l2,
    log = (l1 ++ l2)%list /\ Forall (answered fetch) l1 /\
    ((batch_fails fetch first_raised l2 e /\
      parent_in fetch str_other (prior ++ l1) (inr l2)) \/
     (l2 = [] /\ parent_in fetch str_other (prior ++ l1) (inl e))).

(** The requests [log] of a call on [urls] that raised [e]. *)
Definition stopped_at (fetch : string -> Exn + json)
  (str_other : json -> string) (first_raised : Exn -> list Exn -> Exn)
  (urls log : list string) (e : Exn) : Prop :=
  (log = urls /\ batch_fails fetch first_raised urls e) \/
  exists l,
    log = (urls ++ l)%list /\ Forall (answered fetch) urls /\
    stopped_after fetch str_other first_raised urls l e.

(** [a] is [b] with some entries left out, the order kept. *)
Inductive subseq {A : Type} : list A -> list A -> Prop :=
| subseq_nil : subseq [] []
| subseq_keep x a b : subseq a b -> subseq (x :: a) (x :: b)
| subseq_skip x a b : subseq a b -> subseq a (x :: b).

(** ** A small store, for the examples *)

Definition item_url (n : Z) : string :=
  ITEM_URL_format (NilZero.string_of_int (Z.to_int n)).

Definition story (id : Z) (kids : list Z) : json :=
  JObj [("id", JNum id); ("kids", JArr (map JNum kids))].

Definition user_pg : json :=
  JObj [("id", JStr "pg"); ("kids", JArr []);
        ("submitted", JArr [JNum 4; JNum 5])].

(** Items 1 and 2 are the roots A and B; 3 is the child of 1, 4 the child
    of 2, 5 the child of 3; 6 is a user with an empty [kids] list and two
    submissions; 7 does not answer in time; 8 is an empty object; 9 has
    the child 7; every other url gives [null]. *)
Definition store : list (Z * (Exn + json)) :=
  [ (1, inr (story 1 [3]));
    (2, inr (story 2 [4]));
    (3, inr (story 3 [5]));
    (4, inr (story 4 []));
    (5, inr (story 5 []));
    (6, inr user_pg);
    (7, inl TimeoutError);
    (8, inr (JObj []));
    (9, inr (story 9 [7])) ].

Fixpoint lookup_url (s : list (Z * (Exn + json))) (url : string)
  : Exn + json :=
  match s with
  | [] => inr JNull
  | (n, r) :: s' => if String.eqb url (item_url n) then r else lookup_url s' url
  end.

Definition hn (url : string) : Exn + json := lookup_url store url.

(** The same store with a user and two malformed bodies: the url of user
    "pg" gives [user_pg], item 20 is the bare number 5, item 21 a dict
    whose "kids" is the number 3. *)
Definition odd_kids : list (string * json) :=
  [("kids", JNum 3); ("submitted", JArr [JNum 4])].

Definition hn_odd (url : string) : Exn + json :=
  if String.eqb url (USER_URL_format "pg") then inr user_pg
  else if String.eqb url (item_url 20) then inr (JNum 5)
  else if String.eqb url (item_url 21) then inr (JObj odd_kids)
  else hn url.

(** Two urls that fail in different ways: item 30 does not answer in
    time, the connection to item 31 breaks. *)
Definition hn_down (url : string) : Exn + json :=
  if String.eqb url (item_url 30) then inl TimeoutError
  else if String.eqb url (item_url 31) then inl TransportError
  else hn url.

(** Item 40 lists the child 5 twice. *)
Definition hn_dup (url : string) : Exn + json :=
  if String.eqb url (item_url 40) then inr (story 40 [5; 5]) else hn url.

(** The rightmost failing task is the first to raise. *)
Definition rightmost (e : Exn) (es : list Exn) : Exn := last es e.

(** The kids of [store] are integers: no other rendering is reached. *)
Definition no_other (_ : json) : string := "".

(** The leftmost failing task is the first to raise. *)
Definition leftmost (e : Exn) (_ : list Exn) : Exn := e.


(** * Properties *)

(** ** The monad *)

Lemma bind_ret_l {A B} (a : A) (f : A -> M B) : bind (ret a) f = f a.
Proof. unfold bind, ret. destruct (f a) as [l r]. reflexivity. Qed.

Lemma bind_ret_r {A} (m : M A) : bind m ret = m.
Proof.
  destruct m as [l [e | a]]; simpl; [reflexivity |].
  now rewrite app_nil_r.
Qed.

Lemma bind_assoc {A B C} (m : M A) (f : A -> M B) (g : B -> M C) :
  bind (bind m f) g = bind m (fun a => bind (f a) g).
Proof.
  destruct m as [l [e | a]]; simpl; [reflexivity |].
  destruct (f a) as [l1 [e1 | b]]; simpl; [reflexivity |].
  destruct (g b) as [l2 r2]. now rewrite app_assoc.
Qed.

Lemma bind_lift_inr {A B} (a : A) (f : A -> M B) :
  bind (lift (inr a)) f = f a.
Proof. apply bind_ret_l. Qed.

Lemma bind_run {A B} (m : M A) (f : A -> M B) l1 a l2 r :
  m = (l1, inr a) -> f a = (l2, r) -> bind m f = ((l1 ++ l2)%list, r).
Proof. intros -> H. simpl. now rewrite H. Qed.

Lemma bind_inr {A B} (m : M A) (f : A -> M B) l b :
  bind m f = (l, inr b) ->
  exists l1 a l2, m = (l1, inr a) /\ f a = (l2, inr b) /\ l = (l1 ++ l2)%list.
Proof.
  destruct m as [l1 [e | a]]; simpl; [discriminate |].
  destruct (f a) as [l2 r] eqn:E. intros [= <- ->].
  now exists l1, a, l2.
Qed.

Lemma bind_inl {A B} (m : M A) (f : A -> M B) l e :
  bind m f = (l, inl e) ->
  m = (l, inl e) \/
  exists l1 a l2, m = (l1, inr a) /\ f a = (l2, inl e) /\ l = (l1 ++ l2)%list.
Proof.
  destruct m as [l1 [e1 | a]]; simpl.
  - intros [= <- <-]. now left.
  - destruct (f a) as [l2 r] eqn:E. intros [= <- ->].
    right. now exists l1, a, l2.
Qed.

Lemma bind_ext {A B} (m : M A) (f g : A -> M B) :
  (forall a, f a = g a) -> bind m f = bind m g.
Proof.
  intros H. destruct m as [l [e | a]]; simpl; [reflexivity |].
  now rewrite H.
Qed.

(** ** One level: the join *)

Section Level.

Variable fetch : string -> Exn + json.

Lemma raised_nil_fetched (urls : list string) :
  raised (map fetch urls) = [] ->
  Forall2 (fetched fetch) urls (ok_values (map fetch urls)).
Proof.
  induction urls as [| u urls IH]; simpl; [constructor |].
  destruct (fetch u) as [e | j] eqn:E; [discriminate |].
  intros H. constructor; [exact E | now apply IH].
Qed.

Lemma fetched_raised_nil (urls : list string) (items : list json) :
  Forall2 (fetched fetch) urls items ->
  raised (map fetch urls) = [] /\ ok_values (map fetch urls) = items.
Proof.
  induction 1 as [| u j urls items Hu _ [IH1 IH2]]; simpl; [now split |].
  rewrite Hu. split; [exact IH1 | now rewrite IH2].
Qed.

Lemma raised_In (urls : list string) (e : Exn) :
  In e (raised (map fetch urls)) <-> exists u, In u urls /\ fetch u = inl e.
Proof.
  induction urls as [| u urls IH]; simpl.
  - split; [tauto | now intros [u [[] _]]].
  - destruct (fetch u) as [e' | j] eqn:E; simpl; rewrite IH; split.
    + intros [-> | [u' [Hin Hu']]]; [exists u; auto | exists u'; auto].
    + intros [u' [[<- | Hin] Hu']]; [left; congruence | right; eauto].
    + intros [u' [Hin Hu']]. exists u'; auto.
    + intros [u' [[<- | Hin] Hu']]; [congruence | eauto].
Qed.

Lemma fetched_length (urls : list string) (items : list json) :
  Forall2 (fetched fetch) urls items -> List.length items = List.length urls.
Proof. intros H. symmetry. exact (Forall2_length H). Qed.

Variable first_raised : Exn -> list Exn -> Exn.

Lemma gather_ok (urls : list string) (items : list json) :
  Forall2 (fetched fetch) urls items ->
  gather fetch first_raised urls = (urls, inr items).
Proof.
  intros H. unfold gather.
  destruct (fetched_raised_nil urls items H) as [-> ->]. reflexivity.
Qed.

Lemma gather_inr (urls l : list string) (items : list json) :
  gather fetch first_raised urls = (l, inr items) ->
  l = urls /\ Forall2 (fetched fetch) urls items.
Proof.
  unfold gather.
  destruct (raised (map fetch urls)) as [| e es] eqn:E; [| discriminate].
  intros [= <- <-]. split; [reflexivity | now apply raised_nil_fetched].
Qed.

Lemma gather_inl (urls l : list string) (e : Exn) :
  gather fetch first_raised urls = (l, inl e) ->
  l = urls /\
  exists e0 es, raised (map fetch urls) = e0 :: es /\ e = first_raised e0 es.
Proof.
  unfold gather.
  destruct (raised (map fetch urls)) as [| e0 es] eqn:E; [discriminate |].
  intros [= <- <-]. split; [reflexivity | now exists e0, es].
Qed.

End Level.

(** ** The loop over a batch *)

Section Loop.

Variable str_other : json -> string.
Variable rec : list string -> M (list json).

Lemma expand_items_falsy new_items item rest :
  truthy item = false ->
  expand_items str_other rec new_items (item :: rest)
  = expand_items str_other rec new_items rest.
Proof. intros H. simpl. now rewrite H. Qed.

Lemma expand_items_no_kids new_items item rest :
  child_urls str_other item = inr [] ->
  expand_items str_other rec new_items (item :: rest)
  = expand_items str_other rec new_items rest.
Proof.
  intros H. simpl. rewrite H.
  destruct (truthy item); [apply bind_lift_inr | reflexivity].
Qed.

Lemma expand_items_kids new_items item rest u us :
  truthy item = true ->
  child_urls str_other item = inr (u :: us) ->
  expand_items str_other rec new_items (item :: rest)
  = (sub <- rec (u :: us) ;;
     expand_items str_other rec (new_items ++ sub)%list rest).
Proof. intros Ht H. simpl. rewrite Ht, H. apply bind_lift_inr. Qed.

Lemma expand_items_app new_items items1 items2 :
  expand_items str_other rec new_items (items1 ++ items2)
  = (acc <- expand_items str_other rec new_items items1 ;;
     expand_items str_other rec acc items2).
Proof.
  revert new_items.
  induction items1 as [| item items1 IH]; intros new_items.
  - simpl app. cbn [expand_items]. now rewrite bind_ret_l.
  - simpl app. cbn [expand_items].
    destruct (truthy item); [| apply IH].
    destruct (child_urls str_other item) as [e | [| u us]].
    + reflexivity.
    + rewrite !bind_lift_inr. apply IH.
    + rewrite !bind_lift_inr, bind_assoc.
      apply bind_ext. intros sub. apply IH.
Qed.

(** A successful run of the loop, item by item. *)
Lemma expand_items_inr new_items items l out :
  expand_items str_other rec new_items items = (l, inr out) ->
  exists ps, Forall2 (expands_to str_other rec) items ps /\
    l = List.concat (map fst ps) /\
    out = (new_items ++ List.concat (map snd ps))%list.
Proof.
  revert new_items l.
  induction items as [| item rest IH]; intros new_items l.
  - intros [= <- <-]. exists []. simpl. now rewrite app_nil_r.
  - destruct (truthy item) eqn:Ht.
    + destruct (child_urls str_other item) as [e | [| u us]] eqn:Hc.
      * simpl. rewrite Ht, Hc. discriminate.
      * rewrite (expand_items_no_kids _ _ _ Hc). intros H.
        destruct (IH _ _ H) as [ps [Hps [-> ->]]].
        exists (([], []) :: ps). split; [| now split].
        constructor; [| exact Hps].
        unfold expands_to. rewrite Ht. now exists [].
      * rewrite (expand_items_kids _ _ _ _ _ Ht Hc). intros H.
        apply bind_inr in H. destruct H as [l1 [sub [l2 [Hr [H ->]]]]].
        destruct (IH _ _ H) as [ps [Hps [-> ->]]].
        exists ((l1, sub) :: ps). simpl. rewrite app_assoc.
        split; [| now split].
        constructor; [| exact Hps].
        unfold expands_to. rewrite Ht. now exists (u :: us).
    + rewrite (expand_items_falsy _ _ _ Ht). intros H.
      destruct (IH _ _ H) as [ps [Hps [-> ->]]].
      exists (([], []) :: ps). split; [| now split].
      constructor; [| exact Hps].
      unfold expands_to. now rewrite Ht.
Qed.

(** The loop returns as soon as every item's own expansion does. *)
Lemma expand_items_run new_items items ps :
  Forall2 (expands_to str_other rec) items ps ->
  expand_items str_other rec new_items items
  = (List.concat (map fst ps),
     inr (new_items ++ List.concat (map snd ps))%list).
Proof.
  intros H. revert new_items.
  induction H as [| item p rest ps Hp _ IH]; intros new_items.
  - simpl. now rewrite app_nil_r.
  - unfold expands_to in Hp. destruct (truthy item) eqn:Ht.
    + destruct Hp as [[| u us] [Hc Hp]].
      * subst p. rewrite (expand_items_no_kids _ _ _ Hc). apply IH.
      * rewrite (expand_items_kids _ _ _ _ _ Ht Hc).
        rewrite (bind_run _ _ _ _ _ _ Hp (IH _)). simpl. now rewrite app_assoc.
    + subst p. rewrite (expand_items_falsy _ _ _ Ht). apply IH.
Qed.

End Loop.

(** ** The recursion *)

Section Expansion.

Variable fetch : string -> Exn + json.
Variable str_other : json -> string.
Variable first_raised : Exn -> list Exn -> Exn.

Local Abbreviation gather' := (gather fetch first_raised).
Local Abbreviation expand' := (expand fetch str_other first_raised).
Local Abbreviation run := (async_fetch_urls fetch str_other first_raised).

Lemma expand_0 urls : expand' 0%nat urls = gather' urls.
Proof. cbn [expand]. apply bind_ret_r. Qed.

Lemma expand_S d urls :
  expand' (S d) urls
  = (items <- gather' urls ;;
     new_items <- expand_items str_other (expand' d) [] items ;;
     ret (items ++ new_items)%list).
Proof. reflexivity. Qed.

(** The source's own equation, on the integer budget: line 38 tests
    [recursive > 0], line 51 passes [recursive - 1]. *)
Lemma async_fetch_urls_unfold urls recursive :
  run urls recursive
  = (items <- gather' urls ;;
     if recursive >? 0 then
       new_items <- expand_items str_other
                      (fun urls' => run urls' (recursive - 1)) [] items ;;
       ret (items ++ new_items)%list
     else ret items).
Proof.
  unfold async_fetch_urls.
  destruct (Z.gtb_spec recursive 0) as [Hpos | Hneg].
  - replace (Z.to_nat recursive) with (S (Z.to_nat (recursive - 1))) by lia.
    reflexivity.
  - replace (Z.to_nat recursive) with 0%nat by lia. reflexivity.
Qed.

(** The entry point of section 4.3, on a loop still open: one root, the
    user's url. *)
Lemma get_user_items_unfold username recursive :
  snd (get_user_items fetch str_other first_raised false username recursive)
  = run [USER_URL_format username] recursive.
Proof.
  unfold get_user_items, fetch_urls.
  now destruct (outcome (run [USER_URL_format username] recursive)).
Qed.

Lemma expand_requests d urls :
  exists l, requests (expand' d urls) = (urls ++ l)%list.
Proof.
  destruct d as [| d].
  - rewrite expand_0. exists []. simpl. now rewrite app_nil_r.
  - rewrite expand_S. unfold gather.
    destruct (raised (map fetch urls)) as [| e es].
    + cbn [bind].
      destruct (bind (expand_items _ _ _ _) _) as [l r]. now exists l.
    + exists []. simpl. now rewrite app_nil_r.
Qed.

Lemma expand_S_inr d urls log out :
  expand' (S d) urls = (log, inr out) ->
  exists items ps,
    Forall2 (fetched fetch) urls items /\
    Forall2 (expands_to str_other (expand' d)) items ps /\
    log = (urls ++ List.concat (map fst ps))%list /\
    out = (items ++ List.concat (map snd ps))%list.
Proof.
  rewrite expand_S. intros H.
  apply bind_inr in H. destruct H as [l1 [items [l2 [Hg [H ->]]]]].
  apply gather_inr in Hg. destruct Hg as [-> Hitems].
  apply bind_inr in H. destruct H as [l3 [sub [l4 [Hl [H ->]]]]].
  injection H as <- <-.
  apply expand_items_inr in Hl. destruct Hl as [ps [Hps [-> ->]]].
  exists items, ps. simpl. now rewrite app_nil_r.
Qed.

Lemma expand_S_run d urls items ps :
  Forall2 (fetched fetch) urls items ->
  Forall2 (expands_to str_other (expand' d)) items ps ->
  expand' (S d) urls
  = ((urls ++ List.concat (map fst ps))%list,
     inr (items ++ List.concat (map snd ps))%list).
Proof.
  intros Hitems Hps. rewrite expand_S.
  rewrite (gather_ok fetch first_raised _ _ Hitems). cbn [bind].
  rewrite (expand_items_run _ _ [] _ _ Hps). simpl. now rewrite app_nil_r.
Qed.

Lemma concat_fetched (ps : list (list string * list json)) :
  Forall (fun p => Forall2 (fetched fetch) (fst p) (snd p)) ps ->
  Forall2 (fetched fetch) (List.concat (map fst ps))
    (List.concat (map snd ps)).
Proof.
  induction 1 as [| p ps Hp _ IH]; simpl; [constructor |].
  now apply Forall2_app.
Qed.

(** On success the result lists, in order, the body of each request
    issued: one entry per request, nothing merged. *)
Lemma expand_fetched d : forall urls log out,
  expand' d urls = (log, inr out) -> Forall2 (fetched fetch) log out.
Proof.
  induction d as [| d IH]; intros urls log out H.
  - rewrite expand_0 in H. apply gather_inr in H. now destruct H as [-> H].
  - apply expand_S_inr in H.
    destruct H as [items [ps [Hitems [Hps [-> ->]]]]].
    apply Forall2_app; [exact Hitems |]. apply concat_fetched.
    clear Hitems. induction Hps as [| item p items ps Hp _ IHps];
      constructor; [| exact IHps].
    unfold expands_to in Hp. destruct (truthy item).
    + destruct Hp as [[| u us] [_ Hp]].
      * subst p. constructor.
      * exact (IH _ _ _ Hp).
    + subst p. constructor.
Qed.

Lemma expand_prefix d urls log out :
  expand' d urls = (log, inr out) ->
  exists items l rest,
    Forall2 (fetched fetch) urls items /\ Forall2 (fetched fetch) l rest /\
    log = (urls ++ l)%list /\ out = (items ++ rest)%list.
Proof.
  intros H. pose proof (expand_fetched _ _ _ _ H) as Hall.
  destruct (expand_requests d urls) as [l Hl].
  rewrite H in Hl. simpl in Hl. subst log.
  apply Forall2_app_inv_l in Hall.
  destruct Hall as [items [rest [Hitems [Hrest ->]]]].
  now exists items, l, rest.
Qed.

Lemma fetched_answered log out :
  Forall2 (fetched fetch) log out -> Forall (answered fetch) log.
Proof.
  induction 1 as [| u j log out Hu _ IH]; constructor; [| exact IH].
  now exists j.
Qed.

Lemma fetched_nth urls items i u :
  Forall2 (fetched fetch) urls items -> nth_error urls i = Some u ->
  exists j, nth_error items i = Some j /\ fetch u = inr j.
Proof.
  intros H. revert i.
  induction H as [| u' j urls items Hu _ IH]; intros [| i]; simpl;
    try discriminate.
  - intros [= <-]. now exists j.
  - apply IH.
Qed.

(** ** The batch of a call *)

(** C8: whenever [async_fetch_urls urls recursive] returns, for any
    budget, the first [len(urls)] entries of the result are the bodies
    fetched for [urls], in input order; what the recursive calls fetched
    comes after this prefix, so the result has at least [len(urls)]
    entries. *)
Theorem batch_is_prefix urls recursive log out :
  async_fetch_urls fetch str_other first_raised urls recursive
  = (log, inr out) ->
  exists items l rest,
    Forall2 (fetched fetch) urls items /\
    firstn (List.length urls) out = items /\
    out = (items ++ rest)%list /\
    log = (urls ++ l)%list /\ Forall2 (fetched fetch) l rest /\
    (List.length urls <= List.length out)%nat.
Proof.
  intros H. apply expand_prefix in H.
  destruct H as [items [l [rest [Hitems [Hrest [-> ->]]]]]].
  exists items, l, rest.
  pose proof (fetched_length _ _ _ Hitems) as Hlen.
  repeat split; try assumption.
  - rewrite <- Hlen, firstn_app, firstn_all, Nat.sub_diag. simpl.
    apply app_nil_r.
  - rewrite length_app. lia.
Qed.

(** C4: with budget 0, when every fetch of [urls] answers, the call
    returns exactly [len(urls)] results, the i-th one the body fetched for
    the i-th url, and the only requests issued are those of [urls]: no
    child is fetched. *)
Theorem budget_zero_is_batch urls :
  Forall (answered fetch) urls ->
  exists items,
    async_fetch_urls fetch str_other first_raised urls 0 = (urls, inr items) /\
    List.length items = List.length urls /\
    forall i u, nth_error urls i = Some u ->
      exists j, nth_error items i = Some j /\ fetch u = inr j.
Proof.
  intros H.
  assert (Hitems : exists items, Forall2 (fetched fetch) urls items).
  { induction H as [| u urls [j Hu] _ [items IH]].
    - exists []. constructor.
    - exists (j :: items). now constructor. }
  destruct Hitems as [items Hitems]. exists items.
  split; [| split].
  - unfold async_fetch_urls. simpl Z.to_nat. rewrite expand_0.
    now apply gather_ok.
  - now apply fetched_length with (fetch := fetch).
  - intros i u Hi. exact (fetched_nth _ _ _ _ Hitems Hi).
Qed.

(** C9: a negative budget fails the test [recursive > 0] of line 38 the
    way 0 does: the call is the join of this level alone, the same
    requests and the same outcome as with budget 0, no child expanded and
    no exception of its own. *)
Theorem negative_budget_is_zero urls recursive :
  recursive < 0 ->
  async_fetch_urls fetch str_other first_raised urls recursive
  = async_fetch_urls fetch str_other first_raised urls 0 /\
  async_fetch_urls fetch str_other first_raised urls recursive
  = gather fetch first_raised urls.
Proof.
  intros H. unfold async_fetch_urls.
  replace (Z.to_nat recursive) with 0%nat by lia. simpl Z.to_nat.
  split; [reflexivity | apply expand_0].
Qed.

(** ** Items without children *)

Lemma childless_stops item :
  childless item = true ->
  truthy item = false \/ child_urls str_other item = inr [].
Proof.
  unfold childless. destruct (truthy item) eqn:Ht; [| now left].
  simpl. destruct item as [| b | n | s | l | o]; try discriminate.
  intros H. apply andb_prop in H. destruct H as [Hk Hs].
  right. unfold child_urls, py_or.
  apply negb_true_iff in Hk, Hs. now rewrite Hk, Hs.
Qed.

Lemma expand_items_skip rec new_items pre item post :
  truthy item = false \/ child_urls str_other item = inr [] ->
  expand_items str_other rec new_items (pre ++ item :: post)
  = expand_items str_other rec new_items (pre ++ post).
Proof.
  intros H. rewrite !expand_items_app. apply bind_ext. intros acc.
  destruct H as [H | H].
  - now apply expand_items_falsy.
  - now apply expand_items_no_kids.
Qed.

Lemma expand_items_childless rec new_items items :
  Forall (fun item => childless item = true) items ->
  expand_items str_other rec new_items items = ret new_items.
Proof.
  induction 1 as [| item items Hi _ IH]; [reflexivity |].
  destruct (childless_stops _ Hi) as [H | H].
  - now rewrite expand_items_falsy.
  - now rewrite expand_items_no_kids.
Qed.

Lemma childless_run d urls items :
  Forall2 (fetched fetch) urls items ->
  Forall (fun item => childless item = true) items ->
  expand' d urls = (urls, inr items).
Proof.
  intros Hitems Hc. destruct d as [| d].
  - rewrite expand_0. now apply gather_ok.
  - rewrite expand_S, (gather_ok fetch first_raised _ _ Hitems).
    cbn [bind]. rewrite (expand_items_childless _ _ _ Hc). simpl.
    now rewrite !app_nil_r.
Qed.

Lemma result_at_position urls recursive log out i u j :
  async_fetch_urls fetch str_other first_raised urls recursive
  = (log, inr out) ->
  nth_error urls i = Some u -> fetch u = inr j ->
  nth_error out i = Some j.
Proof.
  intros H Hi Hu. apply expand_prefix in H.
  destruct H as [items [l [rest [Hitems [_ [_ ->]]]]]].
  destruct (fetched_nth _ _ _ _ Hitems Hi) as [j' [Hj' Hu']].
  assert (j' = j) by congruence. subst j'.
  rewrite nth_error_app1; [exact Hj' |].
  apply nth_error_Some. congruence.
Qed.

(** C5: with a budget above 0, when every url of the batch answers with
    an item that is absent or has no child (both child fields missing or
    empty), the call returns exactly the batch, [len(urls)] items and no
    more, and issues no further request. *)
Theorem childless_batch_not_extended urls items recursive :
  0 < recursive ->
  Forall2 (fetched fetch) urls items ->
  Forall (fun item => childless item = true) items ->
  async_fetch_urls fetch str_other first_raised urls recursive
  = (urls, inr items) /\
  List.length items = List.length urls.
Proof.
  intros _ Hitems Hc. split.
  - now apply childless_run.
  - now apply fetched_length with (fetch := fetch).
Qed.

(** C6: an url [x] whose fetch gives the absent body [null] has that
    absent entry at its position in whatever the call returns, for any
    budget; the loop passes over it, so it adds no child url; and the
    absence raises nothing: alone, [x] expands to the one absent entry. *)
Theorem absent_item_kept_not_expanded urls recursive i x :
  nth_error urls i = Some x ->
  fetch x = inr JNull ->
  (forall log out,
     async_fetch_urls fetch str_other first_raised urls recursive
     = (log, inr out) ->
     nth_error out i = Some JNull) /\
  (forall rec new_items pre post,
     expand_items str_other rec new_items (pre ++ JNull :: post)
     = expand_items str_other rec new_items (pre ++ post)) /\
  async_fetch_urls fetch str_other first_raised [x] recursive
  = ([x], inr [JNull]).
Proof.
  intros Hi Hx. split; [| split].
  - intros log out H. exact (result_at_position _ _ _ _ _ _ _ H Hi Hx).
  - intros rec new_items pre post. apply expand_items_skip. now left.
  - apply childless_run; repeat constructor. exact Hx.
Qed.

(** C10: with a budget above 0, an url [x] whose fetch gives the empty
    object is handled as an absent item is: the loop passes over it, the
    same as over [null], so it adds no child url, and it keeps its
    position in what the call returns. *)
Theorem empty_object_kept_not_expanded urls recursive i x :
  0 < recursive ->
  nth_error urls i = Some x ->
  fetch x = inr (JObj []) ->
  (forall log out,
     async_fetch_urls fetch str_other first_raised urls recursive
     = (log, inr out) ->
     nth_error out i = Some (JObj [])) /\
  (forall rec new_items pre post,
     expand_items str_other rec new_items (pre ++ JObj [] :: post)
     = expand_items str_other rec new_items (pre ++ post) /\
     expand_items str_other rec new_items (pre ++ JObj [] :: post)
     = expand_items str_other rec new_items (pre ++ JNull :: post)) /\
  async_fetch_urls fetch str_other first_raised [x] recursive
  = ([x], inr [JObj []]).
Proof.
  intros _ Hi Hx. split; [| split].
  - intros log out H. exact (result_at_position _ _ _ _ _ _ _ H Hi Hx).
  - intros rec new_items pre post.
    rewrite !expand_items_skip by now left. now split.
  - apply childless_run; repeat constructor. exact Hx.
Qed.

(** C3: for an item that is a dict whose "kids" and "submitted" fields,
    where present, are lists [ks] and [ss], the child urls of lines 42-43
    are those of the first non-empty of [ks] and [ss], none when both are
    missing or empty; with "kids" empty they are those of "submitted";
    and these are the urls the loop recurses on. *)
Theorem child_urls_first_non_empty o ks ss :
  list_field "kids" o = Some ks ->
  list_field "submitted" o = Some ss ->
  let url := fun kid => ITEM_URL_format (py_str str_other kid) in
  child_urls str_other (JObj o) = inr (map url (first_non_empty ks ss)) /\
  (ks = [] -> child_urls str_other (JObj o) = inr (map url ss)) /\
  (forall rec new_items rest, truthy (JObj o) = true ->
     expand_items str_other rec new_items (JObj o :: rest)
     = match map url (first_non_empty ks ss) with
       | [] => expand_items str_other rec new_items rest
       | u :: us =>
           sub <- rec (u :: us) ;;
           expand_items str_other rec (new_items ++ sub)%list rest
       end).
Proof.
  intros Hk Hs url.
  assert (H : child_urls str_other (JObj o)
              = inr (map url (first_non_empty ks ss))).
  { unfold list_field in Hk, Hs. unfold child_urls, py_or.
    destruct (dict_get "kids" o) as [| | | | [| k ks'] |]; try discriminate;
      injection Hk as <-;
      destruct (dict_get "submitted" o) as [| | | | [| s' ss'] |];
      try discriminate; injection Hs as <-; reflexivity. }
  split; [exact H | split].
  - intros ->. exact H.
  - intros rec new_items rest Ht.
    destruct (map url (first_non_empty ks ss)) as [| u us] eqn:E.
    + now apply expand_items_no_kids.
    + now apply expand_items_kids.
Qed.

(** ** Duplicates *)

Lemma Forall2_repeat {A B} (R : A -> B -> Prop) a b k :
  R a b -> Forall2 R (repeat a k) (repeat b k).
Proof. intros H. induction k; simpl; now constructor. Qed.

Lemma concat_repeat_nil {A} k : List.concat (repeat (@nil A) k) = [].
Proof. induction k; simpl; auto. Qed.

Lemma k_copies_expansion u k recursive l item sub :
  async_fetch_urls fetch str_other first_raised [u] recursive
  = (u :: l, inr (item :: sub)) ->
  async_fetch_urls fetch str_other first_raised (repeat u k) recursive
  = ((repeat u k ++ List.concat (repeat l k))%list,
     inr (repeat item k ++ List.concat (repeat sub k))%list).
Proof.
  unfold async_fetch_urls. destruct (Z.to_nat recursive) as [| d].
  - rewrite !expand_0. intros H. apply gather_inr in H.
    destruct H as [Hl Hitems]. injection Hl as ->.
    inversion Hitems as [| ? ? ? ? Hu Hnil]; subst. inversion Hnil; subst.
    rewrite !concat_repeat_nil, !app_nil_r.
    apply gather_ok. now apply Forall2_repeat.
  - intros H. apply expand_S_inr in H.
    destruct H as [items [ps [Hitems [Hps [Hlog Hout]]]]].
    inversion Hitems as [| ? item0 ? ? Hu Hnil]; subst. inversion Hnil; subst.
    inversion Hps as [| ? p ? ? Hp Hnil']; subst. inversion Hnil'; subst.
    simpl in Hlog, Hout. rewrite app_nil_r in Hlog, Hout.
    injection Hlog as ->. injection Hout as -> ->.
    rewrite (expand_S_run d (repeat u k) (repeat item0 k) (repeat p k)).
    + now rewrite !map_repeat.
    + now apply Forall2_repeat.
    + now apply Forall2_repeat.
Qed.

Lemma child_urls_of_fields o ks ss :
  list_field "kids" o = Some ks ->
  list_field "submitted" o = Some ss ->
  child_urls str_other (JObj o)
  = inr (map (fun kid => ITEM_URL_format (py_str str_other kid))
           (first_non_empty ks ss)).
Proof.
  unfold list_field, child_urls, py_or. intros Hk Hs.
  destruct (dict_get "kids" o) as [| | | | [| k ks'] |]; try discriminate;
    injection Hk as <-;
    destruct (dict_get "submitted" o) as [| | | | [| s' ss'] |];
    try discriminate; injection Hs as <-; reflexivity.
Qed.

Lemma occurrence_0 u reqs item sub :
  expand' 0%nat [u] = (u :: reqs, inr (item :: sub)) ->
  fetched fetch u item /\ reqs = [] /\ sub = [].
Proof.
  rewrite expand_0. intros H. apply gather_inr in H.
  destruct H as [Hl Hitems]. injection Hl as ->.
  inversion Hitems as [| ? ? ? ? Hu Hnil]; subst. inversion Hnil; subst.
  now split.
Qed.

Lemma occurrence_S d u reqs item sub :
  expand' (S d) [u] = (u :: reqs, inr (item :: sub)) ->
  fetched fetch u item /\
  expands_to str_other (expand' d) item (reqs, sub).
Proof.
  intros H. apply expand_S_inr in H.
  destruct H as [items [ps [Hitems [Hps [Hlog Hout]]]]].
  inversion Hitems as [| ? item0 ? ? Hu Hnil]; subst. inversion Hnil; subst.
  inversion Hps as [| ? p ? ? Hp Hnil']; subst. inversion Hnil'; subst.
  simpl in Hlog, Hout. rewrite app_nil_r in Hlog, Hout.
  injection Hlog as ->. injection Hout as -> ->.
  split; [exact Hu | now destruct p].
Qed.

Lemma expand_occurrences d parts :
  Forall (fun p => expand' d [occ_url p]
                   = (occ_url p :: occ_requests p,
                      inr (occ_item p :: occ_items p))) parts ->
  expand' d (map occ_url parts)
  = ((map occ_url parts ++ List.concat (map occ_requests parts))%list,
     inr (map occ_item parts ++ List.concat (map occ_items parts))%list).
Proof.
  intros H. destruct d as [| d].
  - assert (Hall : Forall2 (fetched fetch) (map occ_url parts)
                     (map occ_item parts) /\
                   List.concat (map occ_requests parts) = [] /\
                   List.concat (map occ_items parts) = []).
    { induction H as [| p parts Hp _ [IH1 [IH2 IH3]]]; simpl.
      - repeat split. constructor.
      - apply occurrence_0 in Hp. destruct Hp as [Hu [-> ->]].
        split; [now constructor | now split]. }
    destruct Hall as [Hitems [-> ->]]. rewrite expand_0, !app_nil_r.
    now apply gather_ok.
  - assert (Hall : Forall2 (fetched fetch) (map occ_url parts)
                     (map occ_item parts) /\
                   Forall2 (expands_to str_other (expand' d))
                     (map occ_item parts)
                     (map (fun p => (occ_requests p, occ_items p)) parts)).
    { induction H as [| p parts Hp _ [IH1 IH2]]; simpl.
      - split; constructor.
      - apply occurrence_S in Hp. destruct Hp as [Hu Hp].
        split; now constructor. }
    destruct Hall as [Hitems Hps].
    rewrite (expand_S_run d _ _ _ Hitems Hps), !map_map. reflexivity.
Qed.

Lemma expand_parent d x o ks ss lc sub :
  fetch x = inr (JObj o) ->
  list_field "kids" o = Some ks ->
  list_field "submitted" o = Some ss ->
  expand' d (map (fun kid => ITEM_URL_format (py_str str_other kid))
               (first_non_empty ks ss)) = (lc, inr sub) ->
  expand' (S d) [x] = (x :: lc, inr (JObj o :: sub)).
Proof.
  intros Hx Hk Hs Hc.
  pose proof (child_urls_of_fields o ks ss Hk Hs) as Hcs.
  rewrite (expand_S_run d [x] [JObj o] [(lc, sub)]).
  - simpl. now rewrite !app_nil_r.
  - repeat constructor. exact Hx.
  - repeat constructor. unfold expands_to.
    assert (Hnone : map (fun kid => ITEM_URL_format (py_str str_other kid))
                      (first_non_empty ks ss) = [] ->
                    (lc, sub) = ([], [])).
    { intros E. rewrite E in Hc.
      rewrite (childless_run d [] []) in Hc by constructor.
      now injection Hc as <- <-. }
    destruct (truthy (JObj o)) eqn:Ht.
    + eexists. split; [exact Hcs |].
      destruct (map _ (first_non_empty ks ss)) as [| u us] eqn:E;
        [now apply Hnone | exact Hc].
    + apply Hnone. destruct o; [| discriminate Ht].
      unfold list_field in Hk, Hs. simpl in Hk, Hs.
      injection Hk as <-. injection Hs as <-. reflexivity.
Qed.

(** C7: nothing is deduplicated, in the input or among the children.
    For every budget: (1) on a sequence of urls, each occurrence being
    taken with what the call on that url alone requests and returns, the
    call requests every occurrence and then, occurrence after
    occurrence, the requests of its own expansion, and returns one entry
    per occurrence and then, occurrence after occurrence, the items of
    its own expansion; (2) with a budget above 0, the call on an item
    whose child fields are the lists [ks] and [ss] is the request of the
    item followed by the call on the url of every element of the first
    non-empty of [ks] and [ss], repeated identifiers repeated; (3) every
    call, returning or not, requests every url of its input, in order;
    (4) [k] copies of one url give [k] copies of its item and [k] times
    its expansion. *)
Theorem every_occurrence_fetched_and_expanded recursive :
  (forall parts,
     Forall (fun p =>
               async_fetch_urls fetch str_other first_raised [occ_url p]
                 recursive
               = (occ_url p :: occ_requests p,
                  inr (occ_item p :: occ_items p))) parts ->
     async_fetch_urls fetch str_other first_raised (map occ_url parts)
       recursive
     = ((map occ_url parts ++ List.concat (map occ_requests parts))%list,
        inr (map occ_item parts
             ++ List.concat (map occ_items parts))%list)) /\
  (forall x o ks ss lc sub,
     0 < recursive ->
     fetch x = inr (JObj o) ->
     list_field "kids" o = Some ks ->
     list_field "submitted" o = Some ss ->
     async_fetch_urls fetch str_other first_raised
       (map (fun kid => ITEM_URL_format (py_str str_other kid))
          (first_non_empty ks ss)) (recursive - 1)
     = (lc, inr sub) ->
     async_fetch_urls fetch str_other first_raised [x] recursive
     = (x :: lc, inr (JObj o :: sub))) /\
  (forall urls,
     exists l,
       requests (async_fetch_urls fetch str_other first_raised urls
                   recursive)
       = (urls ++ l)%list) /\
  (forall u k l item sub,
     async_fetch_urls fetch str_other first_raised [u] recursive
     = (u :: l, inr (item :: sub)) ->
     async_fetch_urls fetch str_other first_raised (repeat u k) recursive
     = ((repeat u k ++ List.concat (repeat l k))%list,
        inr (repeat item k ++ List.concat (repeat sub k))%list)).
Proof.
  split; [| split; [| split]].
  - intros parts. apply expand_occurrences.
  - intros x o ks ss lc sub Hpos. unfold async_fetch_urls.
    replace (Z.to_nat recursive) with (S (Z.to_nat (recursive - 1))) by lia.
    apply expand_parent.
  - intros urls. apply expand_requests.
  - intros u k l item sub. apply k_copies_expansion.
Qed.

(** ** The order of the result *)

(** C1, as the code has it: with a budget above 0 the call returns
    exactly when every url of the batch answers and the recursive call
    made for each item that has child urls (one call per such item, in
    batch order, with the budget less 1) returns; the result is then the
    batch followed by the results of these calls, one parent after the
    other, and the requests are those of the batch followed by those of
    these calls. *)
Theorem expansion_is_per_parent urls recursive log out :
  0 < recursive ->
  async_fetch_urls fetch str_other first_raised urls recursive
  = (log, inr out) <->
  exists items ps,
    Forall2 (fetched fetch) urls items /\
    Forall2
      (expands_to str_other
         (fun us =>
            async_fetch_urls fetch str_other first_raised us
              (recursive - 1)))
      items ps /\
    log = (urls ++ List.concat (map fst ps))%list /\
    out = (items ++ List.concat (map snd ps))%list.
Proof.
  intros Hpos. unfold async_fetch_urls.
  replace (Z.to_nat recursive) with (S (Z.to_nat (recursive - 1))) by lia.
  split.
  - intros H. apply expand_S_inr in H.
    destruct H as [items [ps H]]. now exists items, ps.
  - intros [items [ps [Hitems [Hps [-> ->]]]]].
    now apply expand_S_run.
Qed.

(** ** Failures *)

Section Failure.

Hypothesis first_raised_in :
  forall e es, In (first_raised e es) (e :: es).

Lemma gather_failure urls l e :
  gather fetch first_raised urls = (l, inl e) ->
  l = urls /\ exists u, In u urls /\ fetch u = inl e.
Proof.
  intros H. apply gather_inl in H.
  destruct H as [-> [e0 [es [Hr ->]]]]. split; [reflexivity |].
  apply (proj1 (raised_In fetch urls _)). rewrite Hr. apply first_raised_in.
Qed.

Lemma expand_items_inl rec :
  (forall us l out, rec us = (l, inr out) -> Forall (answered fetch) l) ->
  (forall us l e, rec us = (l, inl e) ->
     (exists u, In u l /\ fetch u = inl e) \/ Forall (answered fetch) l) ->
  forall items new_items l e,
  expand_items str_other rec new_items items = (l, inl e) ->
  (exists u, In u l /\ fetch u = inl e) \/ Forall (answered fetch) l.
Proof.
  intros Hok Hfail.
  induction items as [| item rest IH]; intros new_items l e.
  - discriminate.
  - destruct (truthy item) eqn:Ht.
    + destruct (child_urls str_other item) as [e0 | [| u us]] eqn:Hc.
      * simpl. rewrite Ht, Hc. intros [= <- <-]. right. constructor.
      * rewrite (expand_items_no_kids _ _ _ _ _ Hc). apply IH.
      * rewrite (expand_items_kids _ _ _ _ _ _ _ Ht Hc). intros H.
        apply bind_inl in H.
        destruct H as [H | [l1 [sub [l2 [Hr [H ->]]]]]].
        -- exact (Hfail _ _ _ H).
        -- apply Hok in Hr. destruct (IH _ _ _ H) as [[u' [Hin Hu']] | Hl2].
           ++ left. exists u'. split; [| exact Hu'].
              apply in_or_app. now right.
           ++ right. apply Forall_app. now split.
    + rewrite (expand_items_falsy _ _ _ _ _ Ht). apply IH.
Qed.

Lemma expand_inl d : forall urls log e,
  expand' d urls = (log, inl e) ->
  (exists u, In u log /\ fetch u = inl e) \/ Forall (answered fetch) log.
Proof.
  induction d as [| d IH]; intros urls log e H.
  - rewrite expand_0 in H. apply gather_failure in H.
    destruct H as [-> H]. now left.
  - rewrite expand_S in H. apply bind_inl in H.
    destruct H as [H | [l1 [items [l2 [Hg [H ->]]]]]].
    + apply gather_failure in H. destruct H as [-> H]. now left.
    + apply gather_inr in Hg. destruct Hg as [-> Hitems].
      apply fetched_answered in Hitems.
      apply bind_inl in H.
      destruct H as [H | [l3 [sub [l4 [_ [H _]]]]]]; [| discriminate].
      apply expand_items_inl in H.
      * destruct H as [[u [Hin Hu]] | Hl2].
        -- left. exists u. split; [| exact Hu]. apply in_or_app. now right.
        -- right. apply Forall_app. now split.
      * intros us l out Hr. apply expand_fetched in Hr.
        exact (fetched_answered _ _ Hr).
      * intros us l e0 Hr. exact (IH _ _ _ Hr).
Qed.

(** C2, as the code has it: when a request issued by the call, at any
    level, raises, the call returns no result at all: it raises, and what
    it raises is the exception of one of the failed requests (the one the
    join reports); when the failed requests all raise the same [e], as
    when a single one fails, the call raises [e]. *)
Theorem fetch_failure_propagates urls recursive u e :
  let call := async_fetch_urls fetch str_other first_raised urls recursive in
  In u (requests call) ->
  fetch u = inl e ->
  exists e',
    outcome call = inl e' /\
    (exists u', In u' (requests call) /\ fetch u' = inl e') /\
    ((forall u' e'', In u' (requests call) -> fetch u' = inl e'' -> e'' = e) ->
     e' = e).
Proof.
  unfold async_fetch_urls.
  destruct (expand' (Z.to_nat recursive) urls) as [log [e' | out]] eqn:H;
    simpl; intros Hin Hu.
  - assert (Hsrc : exists u', In u' log /\ fetch u' = inl e').
    { destruct (expand_inl _ _ _ _ H) as [Hsrc | Hall]; [exact Hsrc |].
      rewrite Forall_forall in Hall. destruct (Hall _ Hin) as [j Hj].
      congruence. }
    exists e'. split; [reflexivity | split; [exact Hsrc |]].
    intros Hsame. destruct Hsrc as [u' [Hin' Hu']]. exact (Hsame _ _ Hin' Hu').
  - apply expand_fetched in H. apply fetched_answered in H.
    rewrite Forall_forall in H. destruct (H _ Hin) as [j Hj]. congruence.
Qed.

End Failure.

End Expansion.

(** * Further properties of the calls *)

Section Calls.

Variable fetch : string -> Exn + json.
Variable str_other : json -> string.

Lemma fetched_unique urls : forall items items',
  Forall2 (fetched fetch) urls items ->
  Forall2 (fetched fetch) urls items' -> items = items'.
Proof.
  induction urls as [| u urls IH]; intros items items' H H';
    inversion H; inversion H'; subst; [reflexivity |].
  f_equal; [unfold fetched in *; congruence | now apply IH].
Qed.

Lemma fetched_app_inv urls items sub items' sub' :
  Forall2 (fetched fetch) urls items ->
  Forall2 (fetched fetch) urls items' ->
  (items ++ sub = items' ++ sub')%list -> sub = sub'.
Proof.
  intros H H' E. rewrite (fetched_unique _ _ _ H H') in E.
  exact (app_inv_head _ _ _ E).
Qed.

Section Batch.

Variable first_raised : Exn -> list Exn -> Exn.

(** X1: the call on no url at all issues no request and returns the
    empty list, whatever the budget. *)
Theorem empty_input_no_request recursive :
  async_fetch_urls fetch str_other first_raised [] recursive = ([], inr []).
Proof. apply childless_run; constructor. Qed.

(** X2: when the call returns, the result has one entry per request
    issued, in the order the requests were issued: the i-th item is the
    body fetched by the i-th request. *)
Theorem one_item_per_request urls recursive log out :
  async_fetch_urls fetch str_other first_raised urls recursive
  = (log, inr out) ->
  Forall2 (fetched fetch) log out /\ List.length out = List.length log.
Proof.
  intros H. apply expand_fetched in H. split; [exact H |].
  symmetry. exact (Forall2_length H).
Qed.

(** X3: when a url of the batch itself fails, the call raises whatever
    the budget, and the requests issued are those of the batch alone: no
    child is fetched. *)
Theorem failed_batch_fetches_no_child urls recursive u e :
  In u urls ->
  fetch u = inl e ->
  requests (async_fetch_urls fetch str_other first_raised urls recursive)
  = urls /\
  exists e',
    outcome (async_fetch_urls fetch str_other first_raised urls recursive)
    = inl e'.
Proof.
  intros Hin Hu.
  assert (Hg : exists e', gather fetch first_raised urls = (urls, inl e')).
  { unfold gather.
    destruct (raised (map fetch urls)) as [| e0 es] eqn:E.
    - assert (Hr : In e (raised (map fetch urls)))
        by (apply raised_In; now exists u).
      rewrite E in Hr. destruct Hr.
    - now exists (first_raised e0 es). }
  destruct Hg as [e' Hg]. unfold async_fetch_urls.
  destruct (Z.to_nat recursive) as [| d].
  - rewrite expand_0, Hg. split; [reflexivity | now exists e'].
  - rewrite expand_S, Hg. split; [reflexivity | now exists e'].
Qed.

End Batch.

Section Composition.

Variable first_raised : Exn -> list Exn -> Exn.

(** X5: the call on two url lists put end to end is made of the calls on
    each: when the call on [us1] returns its batch [items1] followed by
    [sub1], and the call on [us2] its batch [items2] followed by [sub2],
    the call on [us1 ++ us2] returns both batches and then both
    expansions, and issues the requests of both in the same order. *)
Theorem expansion_of_concatenation us1 us2 recursive l1 l2
        items1 items2 sub1 sub2 :
  Forall2 (fetched fetch) us1 items1 ->
  Forall2 (fetched fetch) us2 items2 ->
  async_fetch_urls fetch str_other first_raised us1 recursive
  = ((us1 ++ l1)%list, inr (items1 ++ sub1)%list) ->
  async_fetch_urls fetch str_other first_raised us2 recursive
  = ((us2 ++ l2)%list, inr (items2 ++ sub2)%list) ->
  async_fetch_urls fetch str_other first_raised (us1 ++ us2) recursive
  = (((us1 ++ us2) ++ l1 ++ l2)%list,
     inr ((items1 ++ items2) ++ sub1 ++ sub2)%list).
Proof.
  intros Hi1 Hi2. unfold async_fetch_urls.
  destruct (Z.to_nat recursive) as [| d].
  - rewrite !expand_0. intros H1 H2.
    apply gather_inr in H1, H2. destruct H1 as [E1 H1], H2 as [E2 H2].
    assert (l1 = []) by (apply (app_inv_head us1); now rewrite app_nil_r).
    assert (l2 = []) by (apply (app_inv_head us2); now rewrite app_nil_r).
    assert (sub1 = []).
    { apply (app_inv_head items1). rewrite app_nil_r.
      exact (fetched_unique _ _ _ H1 Hi1). }
    assert (sub2 = []).
    { apply (app_inv_head items2). rewrite app_nil_r.
      exact (fetched_unique _ _ _ H2 Hi2). }
    subst. simpl. rewrite !app_nil_r.
    apply gather_ok. now apply Forall2_app.
  - intros H1 H2. apply expand_S_inr in H1, H2.
    destruct H1 as [i1 [ps1 [Hf1 [Hp1 [E1 O1]]]]].
    destruct H2 as [i2 [ps2 [Hf2 [Hp2 [E2 O2]]]]].
    rewrite (fetched_unique _ _ _ Hf1 Hi1) in *.
    rewrite (fetched_unique _ _ _ Hf2 Hi2) in *.
    apply app_inv_head in E1, E2, O1, O2. subst l1 l2 sub1 sub2.
    rewrite (expand_S_run fetch str_other first_raised d (us1 ++ us2)
               (items1 ++ items2) (ps1 ++ ps2)).
    + now rewrite !map_app, !concat_app.
    + now apply Forall2_app.
    + now apply Forall2_app.
Qed.

End Composition.

Section Behaviour.

Variable first_raised : Exn -> list Exn -> Exn.

Lemma expand_items_raises rec new_items pre item post e :
  Forall (fun i => childless i = true) pre ->
  truthy item = true ->
  child_urls str_other item = inl e ->
  expand_items str_other rec new_items (pre ++ item :: post) = ([], inl e).
Proof.
  intros Hpre Ht Hc.
  rewrite expand_items_app, (expand_items_childless _ _ _ _ Hpre), bind_ret_l.
  simpl. now rewrite Ht, Hc.
Qed.

Lemma bad_item_raises urls pre item post recursive e :
  0 < recursive ->
  Forall2 (fetched fetch) urls (pre ++ item :: post) ->
  Forall (fun i => childless i = true) pre ->
  truthy item = true ->
  child_urls str_other item = inl e ->
  async_fetch_urls fetch str_other first_raised urls recursive
  = (urls, inl e).
Proof.
  intros Hpos Hitems Hpre Ht Hc. unfold async_fetch_urls.
  replace (Z.to_nat recursive) with (S (Z.to_nat (recursive - 1))) by lia.
  rewrite expand_S, (gather_ok fetch first_raised _ _ Hitems). cbn [bind].
  rewrite (expand_items_raises _ _ _ _ _ _ Hpre Ht Hc). simpl.
  now rewrite app_nil_r.
Qed.

(** X6: a body that is truthy but not a dict (a number, a string, a
    non-empty list, [true]) is returned as it is with budget 0, and makes
    the call raise [AttributeError] with any budget above 0, when the
    items before it in the batch have no child; the batch is the only
    request issued. *)
Theorem non_dict_item_raises urls pre item post recursive :
  Forall2 (fetched fetch) urls (pre ++ item :: post) ->
  Forall (fun i => childless i = true) pre ->
  truthy item = true ->
  (forall o, item <> JObj o) ->
  async_fetch_urls fetch str_other first_raised urls 0
  = (urls, inr (pre ++ item :: post)%list) /\
  (0 < recursive ->
   async_fetch_urls fetch str_other first_raised urls recursive
   = (urls, inl AttributeError)).
Proof.
  intros Hitems Hpre Ht Hnd. split.
  - unfold async_fetch_urls. simpl Z.to_nat. rewrite expand_0.
    now apply gather_ok.
  - intros Hpos. apply (bad_item_raises urls pre item post); auto.
    destruct item; try reflexivity. now destruct (Hnd o).
Qed.

(** X7: a dict whose "kids" field is a non-zero number or [true] makes
    the call raise [TypeError] with any budget above 0, whatever its
    "submitted" field holds: the truthy "kids" is chosen and cannot be
    iterated. *)
Theorem non_iterable_kids_raise urls pre o post recursive :
  0 < recursive ->
  Forall2 (fetched fetch) urls (pre ++ JObj o :: post) ->
  Forall (fun i => childless i = true) pre ->
  (exists n, n <> 0 /\ dict_get "kids" o = JNum n)
  \/ dict_get "kids" o = JBool true ->
  async_fetch_urls fetch str_other first_raised urls recursive
  = (urls, inl TypeError).
Proof.
  intros Hpos Hitems Hpre Hk.
  assert (Ho : o <> []).
  { intros ->. simpl in Hk. destruct Hk as [[n [_ Hk]] | Hk]; discriminate. }
  apply (bad_item_raises urls pre (JObj o) post); auto.
  - destruct o; [contradiction | reflexivity].
  - unfold child_urls, py_or.
    destruct Hk as [[n [Hn ->]] | ->]; simpl.
    + apply Z.eqb_neq in Hn. now rewrite Hn.
    + reflexivity.
Qed.

(** X8: the posts of a user.  On an event loop still open, when the
    url of [username] gives a dict with no "kids" and the integer ids
    [ids] as "submitted", and each of their item urls answers,
    [get_user_items] with budget 1 issues the request of the user and
    then one per id, returns the user followed by the posts, in the
    order of "submitted", and leaves the loop closed; any call of
    [get_user_items] or [fetch_urls] on the closed loop issues no
    request and raises [RuntimeError]; a call that raises on an open loop
    leaves it open. *)
Theorem user_then_submissions username o ids posts :
  fetch (USER_URL_format username) = inr (JObj o) ->
  truthy (dict_get "kids" o) = false ->
  dict_get "submitted" o = JArr (map JNum ids) ->
  Forall2 (fetched fetch) (map item_url ids) posts ->
  get_user_items fetch str_other first_raised false username 1
  = (true,
     (USER_URL_format username :: map item_url ids,
      inr (JObj o :: posts))) /\
  (forall name recursive,
     get_user_items fetch str_other first_raised true name recursive
     = (true, ([], inl RuntimeError))) /\
  (forall urls recursive,
     fetch_urls fetch str_other first_raised true urls recursive
     = (true, ([], inl RuntimeError))) /\
  (forall urls recursive log e,
     async_fetch_urls fetch str_other first_raised urls recursive
     = (log, inl e) ->
     fetch_urls fetch str_other first_raised false urls recursive
     = (false, (log, inl e))).
Proof.
  intros Hu Hk Hs Hposts.
  split; [| split; [reflexivity | split; [reflexivity |]]];
    [| intros urls recursive log e H; unfold fetch_urls; now rewrite H].
  assert (H : async_fetch_urls fetch str_other first_raised
                [USER_URL_format username] 1
              = (USER_URL_format username :: map item_url ids,
                 inr (JObj o :: posts))).
  { unfold async_fetch_urls. change (Z.to_nat 1) with 1%nat.
    rewrite (expand_S_run fetch str_other first_raised 0
               [USER_URL_format username] [JObj o]
               [(map item_url ids, posts)]).
    - simpl. now rewrite !app_nil_r.
    - repeat constructor. exact Hu.
    - repeat constructor. unfold expands_to.
      assert (Ht : truthy (JObj o) = true).
      { destruct o; [discriminate Hs | reflexivity]. }
      rewrite Ht. exists (map item_url ids). split.
      + unfold child_urls, py_or. rewrite Hk, Hs.
        destruct ids as [| i ids]; simpl; [reflexivity |].
        f_equal. f_equal. now rewrite map_map.
      + destruct (map item_url ids) as [| u us] eqn:E.
        * inversion Hposts. reflexivity.
        * simpl fst. simpl snd. rewrite expand_0. now apply gather_ok. }
  unfold get_user_items, fetch_urls. now rewrite H.
Qed.

(** X9: what the command line prints.  With an author, when the fetch
    returns, the one line printed counts the requests issued, the first
    of them the url of the author; when it raises, so does the program,
    and nothing is printed; with no author, or an empty one, no request
    is issued and nothing printed. *)
Theorem main_prints_request_count name recursive :
  name <> "" ->
  let call :=
    snd (get_user_items fetch str_other first_raised false name recursive) in
  (forall log data, call = (log, inr data) ->
     main fetch str_other first_raised (Some name) recursive
     = (log, inr ["fetched "
                  ++ NilZero.string_of_uint (Nat.to_uint (List.length log))
                  ++ " posts"]) /\
     hd_error log = Some (USER_URL_format name)) /\
  (forall log e, call = (log, inl e) ->
     main fetch str_other first_raised (Some name) recursive = (log, inl e)) /\
  main fetch str_other first_raised None recursive = ([], inr []) /\
  main fetch str_other first_raised (Some "") recursive = ([], inr []).
Proof.
  intros Hname call.
  assert (Hm : main fetch str_other first_raised (Some name) recursive
               = (data <- call ;;
                  ret ["fetched "
                       ++ NilZero.string_of_uint
                            (Nat.to_uint (List.length data))
                       ++ " posts"])).
  { unfold main. apply String.eqb_neq in Hname. now rewrite Hname. }
  split; [| split; [| split; reflexivity]].
  - intros log data H. rewrite Hm. split.
    + rewrite H. simpl. rewrite app_nil_r.
      unfold call in H. rewrite get_user_items_unfold in H.
      apply expand_fetched in H. now rewrite (Forall2_length H).
    + destruct (expand_requests fetch str_other first_raised
                  (Z.to_nat recursive) [USER_URL_format name]) as [l Hl].
      unfold call in H. rewrite get_user_items_unfold in H.
      unfold async_fetch_urls in H.
      rewrite H in Hl. simpl in Hl. now subst log.
  - intros log e H. rewrite Hm, H. reflexivity.
Qed.

End Behaviour.

Section Budget.

Variable first_raised : Exn -> list Exn -> Exn.

Lemma subseq_refl {A} (a : list A) : subseq a a.
Proof. induction a; now constructor. Qed.

Lemma subseq_nil_l {A} (b : list A) : subseq [] b.
Proof. induction b; now constructor. Qed.

Lemma subseq_app {A} (a b c d : list A) :
  subseq a b -> subseq c d -> subseq (a ++ c) (b ++ d).
Proof.
  intros Hab Hcd.
  induction Hab; simpl; [exact Hcd | |]; constructor; auto.
Qed.

Lemma subseq_trans {A} (a b c : list A) :
  subseq a b -> subseq b c -> subseq a c.
Proof.
  intros Hab Hbc. revert a Hab.
  induction Hbc as [| x b c _ IH | x b c _ IH]; intros a Hab.
  - exact Hab.
  - inversion Hab; subst; constructor; auto.
  - constructor. auto.
Qed.

Lemma subseq_length {A} (a b : list A) :
  subseq a b -> (List.length a <= List.length b)%nat.
Proof. induction 1; simpl; lia. Qed.

Lemma subseq_concat (ps ps' : list (list string * list json)) :
  Forall2 (fun p p' => subseq (fst p) (fst p') /\ subseq (snd p) (snd p'))
    ps ps' ->
  subseq (List.concat (map fst ps)) (List.concat (map fst ps')) /\
  subseq (List.concat (map snd ps)) (List.concat (map snd ps')).
Proof.
  induction 1 as [| p p' ps ps' [Hf Hs] _ [IHf IHs]]; simpl.
  - split; constructor.
  - split; now apply subseq_app.
Qed.

Lemma expand_one_less d : forall urls log' out',
  expand fetch str_other first_raised (S d) urls = (log', inr out') ->
  exists log out,
    expand fetch str_other first_raised d urls = (log, inr out) /\
    subseq log log' /\ subseq out out'.
Proof.
  induction d as [| d IH]; intros urls log' out' H;
    apply expand_S_inr in H;
    destruct H as [items [ps' [Hitems [Hps' [-> ->]]]]].
  - exists urls, items. rewrite expand_0. split; [now apply gather_ok |].
    split.
    + rewrite <- (app_nil_r urls) at 1.
      apply subseq_app; [apply subseq_refl | apply subseq_nil_l].
    + rewrite <- (app_nil_r items) at 1.
      apply subseq_app; [apply subseq_refl | apply subseq_nil_l].
  - assert (Hps : exists ps,
               Forall2 (expands_to str_other
                          (expand fetch str_other first_raised d)) items ps /\
               Forall2 (fun p p' => subseq (fst p) (fst p')
                                    /\ subseq (snd p) (snd p')) ps ps').
    { clear Hitems. induction Hps' as [| item p' items ps' Hp' _ [ps [IH1 IH2]]].
      - exists []. split; constructor.
      - unfold expands_to in Hp'. destruct (truthy item) eqn:Ht.
        + destruct Hp' as [[| u us] [Hc Hp']].
          * exists (([], []) :: ps). split; constructor; auto.
            -- unfold expands_to. rewrite Ht. now exists [].
            -- subst p'. split; constructor.
          * destruct (IH _ _ _ Hp') as [l [o [Hr [Hl Ho]]]].
            exists ((l, o) :: ps). split; constructor; auto.
            unfold expands_to. rewrite Ht. now exists (u :: us).
        + exists (([], []) :: ps). split; constructor; auto.
          * unfold expands_to. now rewrite Ht.
          * subst p'. split; constructor. }
    destruct Hps as [ps [Hps Hsub]].
    exists (urls ++ List.concat (map fst ps))%list,
           (items ++ List.concat (map snd ps))%list.
    split; [now apply expand_S_run |].
    destruct (subseq_concat _ _ Hsub) as [Hf Hs].
    split; apply subseq_app; auto using subseq_refl.
Qed.

Lemma expand_less k : forall d urls log' out',
  expand fetch str_other first_raised (k + d) urls = (log', inr out') ->
  exists log out,
    expand fetch str_other first_raised d urls = (log, inr out) /\
    subseq log log' /\ subseq out out'.
Proof.
  induction k as [| k IH]; intros d urls log' out' H.
  - exists log', out'. repeat split; auto using subseq_refl.
  - simpl in H. apply expand_one_less in H.
    destruct H as [l1 [o1 [H [Hl1 Ho1]]]].
    destruct (IH _ _ _ _ H) as [l [o [H0 [Hl Ho]]]].
    exists l, o. repeat split; eauto using subseq_trans.
Qed.

(** X10: a smaller budget asks for less.  When the call with budget
    [hi] returns, the call with any budget [lo] below it returns too; its
    requests and its items are those of the larger call with some left
    out, in the same order, so it returns no more items. *)
Theorem smaller_budget_returns_less urls lo hi log' out' :
  lo <= hi ->
  async_fetch_urls fetch str_other first_raised urls hi = (log', inr out') ->
  exists log out,
    async_fetch_urls fetch str_other first_raised urls lo = (log, inr out) /\
    subseq log log' /\ subseq out out' /\
    (List.length out <= List.length out')%nat.
Proof.
  intros Hle. unfold async_fetch_urls.
  replace (Z.to_nat hi)
    with ((Z.to_nat hi - Z.to_nat lo) + Z.to_nat lo)%nat by lia.
  intros H. apply expand_less in H. destruct H as [log [out [H [Hl Ho]]]].
  exists log, out. repeat split; auto. now apply subseq_length.
Qed.

End Budget.

Section Levels.

Variable first_raised : Exn -> list Exn -> Exn.

Lemma expands_to_0_next_level items ps :
  Forall2 (expands_to str_other (expand fetch str_other first_raised 0))
    items ps ->
  next_level str_other items = inr (List.concat (map fst ps)) /\
  Forall2 (fetched fetch) (List.concat (map fst ps))
    (List.concat (map snd ps)).
Proof.
  induction 1 as [| item p items ps Hp _ [IH1 IH2]]; simpl.
  - split; [reflexivity | constructor].
  - unfold expands_to in Hp. destruct (truthy item).
    + destruct Hp as [cs [Hc Hp]]. rewrite Hc, IH1.
      destruct cs as [| u us].
      * subst p. now split.
      * rewrite expand_0 in Hp. apply gather_inr in Hp.
        destruct Hp as [-> Hp]. split; [reflexivity |].
        now apply Forall2_app.
    + subst p. now split.
Qed.

(** X11: one level of expansion is in level order.  When the call with
    budget 1 returns, its requests are the batch followed by the child
    urls of all its items, in batch order, and its result the batch
    followed by their bodies: what one expansion of the whole next level
    gives. *)
Theorem one_level_is_level_order urls log out :
  async_fetch_urls fetch str_other first_raised urls 1 = (log, inr out) ->
  exists items cs kids,
    Forall2 (fetched fetch) urls items /\
    next_level str_other items = inr cs /\
    Forall2 (fetched fetch) cs kids /\
    log = (urls ++ cs)%list /\ out = (items ++ kids)%list /\
    level_order_expand fetch str_other first_raised 1 urls = (log, inr out).
Proof.
  unfold async_fetch_urls. change (Z.to_nat 1) with 1%nat. intros H.
  apply expand_S_inr in H.
  destruct H as [items [ps [Hitems [Hps [-> ->]]]]].
  destruct (expands_to_0_next_level _ _ Hps) as [Hn Hk].
  exists items, (List.concat (map fst ps)), (List.concat (map snd ps)).
  repeat split; auto.
  cbn [level_order_expand].
  rewrite (gather_ok fetch first_raised _ _ Hitems). cbn [bind].
  rewrite Hn. cbn [lift bind].
  destruct (List.concat (map fst ps)) as [| u us] eqn:E.
  - inversion Hk. simpl. now rewrite !app_nil_r.
  - rewrite (gather_ok fetch first_raised _ _ Hk). simpl.
    now rewrite !app_nil_r.
Qed.

Lemma expand_items_item_urls rec :
  (forall us, exists l,
      requests (rec us) = (us ++ l)%list /\
      Forall (fun u => exists kid, u = ITEM_URL_format kid) l) ->
  forall items new_items,
    Forall (fun u => exists kid, u = ITEM_URL_format kid)
      (requests (expand_items str_other rec new_items items)).
Proof.
  intros Hrec. induction items as [| item rest IH]; intros new_items.
  - constructor.
  - cbn [expand_items]. destruct (truthy item); [| apply IH].
    destruct (child_urls str_other item) as [e | cs] eqn:Hc.
    + constructor.
    + rewrite bind_lift_inr. destruct cs as [| u us]; [apply IH |].
      assert (Hcs : Forall (fun u => exists kid, u = ITEM_URL_format kid)
                      (u :: us)).
      { unfold child_urls in Hc. destruct item; try discriminate.
        destruct (py_iter _) as [e | ks]; [discriminate |].
        injection Hc as Hc. rewrite <- Hc. apply Forall_forall.
        intros x Hx. apply in_map_iff in Hx. destruct Hx as [kid [<- _]].
        now exists (py_str str_other kid). }
      destruct (Hrec (u :: us)) as [l [Hl Hitem]].
      assert (Hboth : Forall (fun u => exists kid, u = ITEM_URL_format kid)
                        (requests (rec (u :: us)))).
      { rewrite Hl. apply Forall_app. now split. }
      destruct (rec (u :: us)) as [lr [e | sub]]; [exact Hboth |].
      cbn [bind]. specialize (IH (new_items ++ sub)%list).
      destruct (expand_items str_other rec _ rest) as [l2 r2].
      unfold requests in *. cbn [fst] in *. apply Forall_app. now split.
Qed.

(** X12: beyond the urls it is given, the call only requests item urls:
    every further request, with any budget and whether the call returns
    or raises, is [ITEM_URL] formatted on some child identifier. *)
Theorem children_requested_as_items urls recursive :
  exists l,
    requests (async_fetch_urls fetch str_other first_raised urls recursive)
    = (urls ++ l)%list /\
    Forall (fun u => exists kid, u = ITEM_URL_format kid) l.
Proof.
  unfold async_fetch_urls. generalize (Z.to_nat recursive) as d. intros d.
  revert urls. induction d as [| d IH]; intros urls.
  - exists []. rewrite expand_0. simpl. split; [now rewrite app_nil_r |].
    constructor.
  - rewrite expand_S. unfold gather.
    destruct (raised (map fetch urls)) as [| e es].
    + cbn [bind].
      pose proof (expand_items_item_urls _ IH
                    (ok_values (map fetch urls)) []) as Hl.
      destruct (expand_items str_other _ [] _) as [l [e | sub]].
      * exists l. now split.
      * exists l. simpl. rewrite app_nil_r. now split.
    + exists []. simpl. split; [now rewrite app_nil_r | constructor].
Qed.

End Levels.

Section Stop.

Variable first_raised : Exn -> list Exn -> Exn.

Lemma parent_in_more seen seen' r :
  (forall u, In u seen -> In u seen') ->
  parent_in fetch str_other seen r -> parent_in fetch str_other seen' r.
Proof.
  intros Hsub [u [item [Hin H]]]. exists u, item. split; [auto | exact H].
Qed.

Lemma stopped_after_later prior l log e :
  Forall (answered fetch) l ->
  stopped_after fetch str_other first_raised prior log e ->
  stopped_after fetch str_other first_raised prior (l ++ log) e.
Proof.
  intros Hl [l1 [l2 [-> [H1 H]]]]. exists (l ++ l1)%list, l2.
  split; [apply app_assoc | split; [apply Forall_app; now split |]].
  assert (Hsub : forall u, In u (prior ++ l1) -> In u (prior ++ l ++ l1)).
  { intros u Hu. rewrite !in_app_iff in *. tauto. }
  destruct H as [[Hb Hp] | [-> Hp]]; [left | right]; split; auto;
    exact (parent_in_more _ _ _ Hsub Hp).
Qed.

Lemma stopped_at_child prior cs l e :
  parent_in fetch str_other prior (inr cs) ->
  stopped_at fetch str_other first_raised cs l e ->
  stopped_after fetch str_other first_raised prior l e.
Proof.
  intros Hparent [[-> Hb] | [l' [-> [Hcs [l1 [l2 [-> [H1 H]]]]]]]].
  - exists [], cs. split; [reflexivity | split; [constructor |]].
    left. split; [exact Hb |]. now rewrite app_nil_r.
  - exists (cs ++ l1)%list, l2.
    split; [apply app_assoc | split; [apply Forall_app; now split |]].
    assert (Hsub : forall u, In u (cs ++ l1) -> In u (prior ++ cs ++ l1)).
    { intros u Hu. rewrite !in_app_iff in *. tauto. }
    destruct H as [[Hb Hp] | [-> Hp]]; [left | right]; split; auto;
      exact (parent_in_more _ _ _ Hsub Hp).
Qed.

Lemma gather_stopped urls l e :
  gather fetch first_raised urls = (l, inl e) ->
  stopped_at fetch str_other first_raised urls l e.
Proof.
  intros H. apply gather_inl in H. destruct H as [-> [e0 [es [Hr ->]]]].
  left. split; [reflexivity | now exists e0, es].
Qed.

Lemma expand_items_stopped rec prior :
  (forall us l out, rec us = (l, inr out) -> Forall (answered fetch) l) ->
  (forall us l e, rec us = (l, inl e) ->
     stopped_at fetch str_other first_raised us l e) ->
  forall items new_items l e,
    Forall (fun item => exists u, In u prior /\ fetch u = inr item) items ->
    expand_items str_other rec new_items items = (l, inl e) ->
    stopped_after fetch str_other first_raised prior l e.
Proof.
  intros Hok Hfail.
  induction items as [| item rest IH]; intros new_items l e Hfrom.
  - discriminate.
  - inversion Hfrom as [| ? ? [u0 [Hin0 Hu0]] Hrest]; subst.
    destruct (truthy item) eqn:Ht.
    + assert (Hparent : forall r, child_urls str_other item = r ->
                parent_in fetch str_other prior r).
      { intros r Hr. now exists u0, item. }
      destruct (child_urls str_other item) as [e0 | [| u us]] eqn:Hc.
      * simpl. rewrite Ht, Hc. intros [= <- <-].
        exists [], []. split; [reflexivity | split; [constructor |]].
        right. split; [reflexivity |]. rewrite app_nil_r. now apply Hparent.
      * rewrite (expand_items_no_kids _ _ _ _ _ Hc). now apply IH.
      * rewrite (expand_items_kids _ _ _ _ _ _ _ Ht Hc). intros H.
        apply bind_inl in H.
        destruct H as [H | [l1 [sub [l2 [Hr [H ->]]]]]].
        -- apply (stopped_at_child prior (u :: us)); [now apply Hparent |].
           exact (Hfail _ _ _ H).
        -- apply stopped_after_later; [exact (Hok _ _ _ Hr) |].
           exact (IH _ _ _ Hrest H).
    + rewrite (expand_items_falsy _ _ _ _ _ Ht). now apply IH.
Qed.

Lemma fetched_from urls items :
  Forall2 (fetched fetch) urls items ->
  Forall (fun item => exists u, In u urls /\ fetch u = inr item) items.
Proof.
  induction 1 as [| u item urls items Hu _ IH]; constructor.
  - exists u. split; [now left | exact Hu].
  - apply Forall_forall. intros i Hi. rewrite Forall_forall in IH.
    destruct (IH i Hi) as [u' [Hin Hu']]. exists u'.
    split; [now right | auto].
Qed.

Lemma expand_stopped d : forall urls log e,
  expand fetch str_other first_raised d urls = (log, inl e) ->
  stopped_at fetch str_other first_raised urls log e.
Proof.
  induction d as [| d IH]; intros urls log e H.
  - rewrite expand_0 in H. exact (gather_stopped _ _ _ H).
  - rewrite expand_S in H. apply bind_inl in H.
    destruct H as [H | [l1 [items [l2 [Hg [H ->]]]]]].
    + exact (gather_stopped _ _ _ H).
    + apply gather_inr in Hg. destruct Hg as [-> Hitems].
      apply bind_inl in H.
      destruct H as [H | [l3 [sub [l4 [_ [H _]]]]]]; [| discriminate].
      right. exists l2. split; [reflexivity |].
      split; [exact (fetched_answered _ _ _ Hitems) |].
      apply expand_items_stopped with (prior := urls) in H; [exact H | | |].
      * intros us l out Hr. apply expand_fetched in Hr.
        exact (fetched_answered _ _ _ Hr).
      * intros us l e0 Hr. exact (IH _ _ _ Hr).
      * now apply fetched_from.
Qed.

(** X13: the call stops at the batch that fails.  When it raises [e],
    its requests are requests [l1] that all answered, followed by one
    last batch [l2]: either [l2] is a batch the code joins, the urls of
    the call itself (nothing before them) or the child urls of a truthy
    item fetched by a request of [l1], and [e] is the exception that the
    join of [l2] reports among its failed fetches; or [l2] is empty and
    [e] is the error of lines 42-43 on a truthy item fetched by a
    request of [l1].  No request follows the batch that failed. *)
Theorem requests_stop_at_failure urls recursive log e :
  async_fetch_urls fetch str_other first_raised urls recursive
  = (log, inl e) ->
  exists l1 l2,
    log = (l1 ++ l2)%list /\ Forall (answered fetch) l1 /\
    (((exists e0 es,
         raised (map fetch l2) = e0 :: es /\ e = first_raised e0 es) /\
      ((l1 = [] /\ l2 = urls) \/
       exists u item,
         In u l1 /\ fetch u = inr item /\ truthy item = true /\
         child_urls str_other item = inr l2)) \/
     (l2 = [] /\
      exists u item,
        In u l1 /\ fetch u = inr item /\ truthy item = true /\
        child_urls str_other item = inl e)).
Proof.
  intros H. apply expand_stopped in H.
  destruct H as [[-> Hb] | [l [-> [Hurls [l1 [l2 [-> [H1 H]]]]]]]].
  - exists [], urls. split; [reflexivity | split; [constructor |]].
    left. split; [exact Hb | now left].
  - exists (urls ++ l1)%list, l2.
    split; [apply app_assoc | split; [apply Forall_app; now split |]].
    destruct H as [[Hb Hp] | [-> Hp]]; [left | right]; split; auto.
Qed.

End Stop.

Section Saturation.

Variable first_raised : Exn -> list Exn -> Exn.

Local Abbreviation expand' := (expand fetch str_other first_raised).

Lemma expands_to_lengths d items ps : forall ps',
  Forall2 (expands_to str_other (expand' d)) items ps ->
  Forall2 (expands_to str_other (expand' (S d))) items ps' ->
  Forall2 (fun p p' => (List.length (snd p) <= List.length (snd p'))%nat)
    ps ps'.
Proof.
  intros ps' H. revert ps'.
  induction H as [| item p items ps Hp _ IH]; intros ps' H';
    inversion H' as [| ? p' ? ps1 Hp' Hrest]; subst; constructor;
    [| now apply IH].
  unfold expands_to in Hp, Hp'. destruct (truthy item).
  - destruct Hp as [cs [Hc Hp]], Hp' as [cs' [Hc' Hp']].
    assert (cs' = cs) by congruence. subst cs'.
    destruct cs as [| u us]; [now subst |].
    apply expand_one_less in Hp'. destruct Hp' as [l [o [Hr [_ Ho]]]].
    rewrite Hp in Hr. injection Hr as _ ->. now apply subseq_length.
  - now subst.
Qed.

Lemma concat_lengths (ps ps' : list (list string * list json)) :
  Forall2 (fun p p' => (List.length (snd p) <= List.length (snd p'))%nat)
    ps ps' ->
  (List.length (List.concat (map snd ps))
   <= List.length (List.concat (map snd ps')))%nat.
Proof.
  induction 1; simpl; [lia |]. rewrite !length_app. lia.
Qed.

Lemma saturated_items d
  (IHd : forall cs l o l' o',
      expand' d cs = (l, inr o) -> expand' (S d) cs = (l', inr o') ->
      List.length o' = List.length o ->
      forall k, expand' (k + d) cs = (l, inr o)) :
  forall items ps ps',
    Forall2 (expands_to str_other (expand' d)) items ps ->
    Forall2 (expands_to str_other (expand' (S d))) items ps' ->
    List.length (List.concat (map snd ps'))
    = List.length (List.concat (map snd ps)) ->
    forall k, Forall2 (expands_to str_other (expand' (k + d))) items ps.
Proof.
  intros items ps ps' H. revert ps'.
  induction H as [| item p items ps Hp Hps IH]; intros ps' H' Hlen k;
    [constructor |].
  inversion H' as [| ? p' ? ps1 Hp' Hrest]; subst.
  pose proof (expands_to_lengths _ _ _ _ (Forall2_cons _ _ Hp Hps) H') as Hle.
  inversion Hle as [| ? ? ? ? Hhd Htl]; subst.
  apply concat_lengths in Htl. simpl in Hlen. rewrite !length_app in Hlen.
  constructor; [| apply (IH ps1); [exact Hrest | lia]].
  unfold expands_to in *. destruct (truthy item); [| exact Hp].
  destruct Hp as [cs [Hc Hp]], Hp' as [cs' [Hc' Hp']].
  assert (cs' = cs) by congruence. subst cs'.
  exists cs. split; [exact Hc |].
  destruct cs as [| u us]; [exact Hp |].
  apply (IHd _ _ _ _ _ Hp Hp'). lia.
Qed.

Lemma saturated_leaves items ps :
  Forall2 (expands_to str_other (expand' 0)) items ps ->
  List.length (List.concat (map snd ps)) = 0%nat ->
  List.concat (map fst ps) = [] /\
  forall rec, Forall2 (expands_to str_other rec) items ps.
Proof.
  induction 1 as [| item p items ps Hp _ IH]; simpl.
  - intros _. split; [reflexivity | constructor].
  - rewrite length_app. intros Hlen.
    destruct IH as [IH1 IH2]; [lia |].
    assert (Hp0 : p = ([], []) /\
                  forall rec, expands_to str_other rec item p).
    { unfold expands_to in *. destruct (truthy item); [| now split].
      destruct Hp as [[| u us] [Hc Hp]].
      - split; [exact Hp |]. intros rec. now exists [].
      - rewrite expand_0 in Hp. apply gather_inr in Hp.
        destruct Hp as [_ Hp]. apply Forall2_length in Hp.
        simpl in Hp. lia. }
    destruct Hp0 as [-> Hp0]. split; [exact IH1 |].
    intros rec. constructor; [apply Hp0 | apply IH2].
Qed.

Lemma expand_saturated d : forall urls log out log' out',
  expand' d urls = (log, inr out) ->
  expand' (S d) urls = (log', inr out') ->
  List.length out' = List.length out ->
  forall k, expand' (k + d) urls = (log, inr out).
Proof.
  induction d as [| d IHd]; intros urls log out log' out' H H' Hlen k.
  - rewrite expand_0 in H. apply gather_inr in H. destruct H as [-> Hitems].
    apply expand_S_inr in H'.
    destruct H' as [items [ps [Hitems' [Hps [-> ->]]]]].
    rewrite (fetched_unique _ _ _ Hitems' Hitems) in *.
    rewrite length_app in Hlen.
    destruct (saturated_leaves _ _ Hps) as [Hf Hany]; [lia |].
    rewrite Nat.add_0_r. destruct k as [| k].
    + rewrite expand_0. now apply gather_ok.
    + rewrite (expand_S_run fetch str_other first_raised k urls out ps
                 Hitems (Hany _)), Hf.
      assert (Hs : List.concat (map snd ps) = []).
      { apply length_zero_iff_nil. lia. }
      now rewrite Hs, !app_nil_r.
  - apply expand_S_inr in H, H'.
    destruct H as [items [ps [Hitems [Hps [-> ->]]]]].
    destruct H' as [items' [ps' [Hitems' [Hps' [-> ->]]]]].
    rewrite (fetched_unique _ _ _ Hitems' Hitems) in *.
    rewrite !length_app in Hlen.
    rewrite Nat.add_succ_r.
    apply expand_S_run; [exact Hitems |].
    apply (saturated_items d IHd items ps ps'); auto. lia.
Qed.

(** X14: once a level adds nothing, no budget adds anything.  When the
    calls with budgets [r] and [r + 1] both return and return the same
    number of items, the call with any budget from [r] on issues the
    requests and returns the items of the call with budget [r]. *)
Theorem extra_level_adds_nothing urls r r' log out log' out' :
  0 <= r ->
  async_fetch_urls fetch str_other first_raised urls r = (log, inr out) ->
  async_fetch_urls fetch str_other first_raised urls (r + 1)
  = (log', inr out') ->
  List.length out' = List.length out ->
  r <= r' ->
  async_fetch_urls fetch str_other first_raised urls r' = (log, inr out).
Proof.
  intros Hr. unfold async_fetch_urls.
  replace (Z.to_nat (r + 1)) with (S (Z.to_nat r)) by lia.
  intros H H' Hlen Hle.
  replace (Z.to_nat r')
    with ((Z.to_nat r' - Z.to_nat r) + Z.to_nat r)%nat by lia.
  exact (expand_saturated _ _ _ _ _ _ H H' Hlen _).
Qed.

End Saturation.

End Calls.

(** * The addresses *)

Lemma list_ascii_of_string_app (a b : string) :
  list_ascii_of_string (a ++ b)
  = (list_ascii_of_string a ++ list_ascii_of_string b)%list.
Proof. induction a as [| c a IH]; simpl; [reflexivity | now rewrite IH]. Qed.

Lemma append_inv_tail (a b s : string) : a ++ s = b ++ s -> a = b.
Proof.
  intros H. apply (f_equal list_ascii_of_string) in H.
  rewrite !list_ascii_of_string_app in H. apply app_inv_tail in H.
  rewrite <- (string_of_list_ascii_of_string a),
          <- (string_of_list_ascii_of_string b).
  now rewrite H.
Qed.

Lemma to_int_not_nil (n : Z) :
  Z.to_int n <> Decimal.Pos Decimal.Nil /\
  Z.to_int n <> Decimal.Neg Decimal.Nil.
Proof.
  destruct n as [| p | p]; simpl; split; try discriminate;
    intros [= H]; exact (DecimalPos.Unsigned.to_uint_nonnil p H).
Qed.

Lemma decimal_inj (n m : Z) :
  NilZero.string_of_int (Z.to_int n) = NilZero.string_of_int (Z.to_int m) ->
  n = m.
Proof.
  intros H. apply (f_equal NilZero.int_of_string) in H.
  destruct (to_int_not_nil n) as [Hn1 Hn2], (to_int_not_nil m) as [Hm1 Hm2].
  rewrite !NilZero.isi in H by assumption.
  injection H as H. now apply DecimalZ.to_int_inj.
Qed.

(** X15: the addresses do not collide.  [ITEM_URL] and [USER_URL]
    formatted on different texts give different urls, two integer child
    identifiers have the same item url only when they are equal, and no
    item url is a user url. *)
Theorem urls_do_not_collide (str_other : json -> string) :
  (forall a b, ITEM_URL_format a = ITEM_URL_format b -> a = b) /\
  (forall a b, USER_URL_format a = USER_URL_format b -> a = b) /\
  (forall n m,
     ITEM_URL_format (py_str str_other (JNum n))
     = ITEM_URL_format (py_str str_other (JNum m)) -> n = m) /\
  (forall a b, ITEM_URL_format a <> USER_URL_format b).
Proof.
  assert (Hitem : forall a b, ITEM_URL_format a = ITEM_URL_format b -> a = b).
  { intros a b H. unfold ITEM_URL_format in H. simpl in H.
    injection H as H. exact (append_inv_tail _ _ _ H). }
  repeat split.
  - exact Hitem.
  - intros a b H. unfold USER_URL_format in H. simpl in H.
    injection H as H. exact (append_inv_tail _ _ _ H).
  - intros n m H. apply Hitem in H. now apply decimal_inj.
  - intros a b H. unfold ITEM_URL_format, USER_URL_format in H. simpl in H.
    discriminate H.
Qed.

(** * The properties on the small store *)

Lemma leftmost_in (e : Exn) (es : list Exn) : In (leftmost e es) (e :: es).
Proof. now left. Qed.

(** The level order of the specification is not the order of the code:
    from the roots 1 and 2 with budget 2, item 5 (depth 2, child of 3)
    comes before item 4 (depth 1, child of 2). *)
Lemma level_order_fails :
  outcome (async_fetch_urls hn no_other leftmost [item_url 1; item_url 2] 2)
  = inr [story 1 [3]; story 2 [4]; story 3 [5]; story 5 []; story 4 []] /\
  outcome (level_order_expand hn no_other leftmost 2 [item_url 1; item_url 2])
  = inr [story 1 [3]; story 2 [4]; story 3 [5]; story 4 []; story 5 []] /\
  async_fetch_urls hn no_other leftmost [item_url 1; item_url 2] 2
  <> level_order_expand hn no_other leftmost 2 [item_url 1; item_url 2].
Proof.
  split; [vm_compute; reflexivity | split; [vm_compute; reflexivity |]].
  intros H. apply (f_equal outcome) in H. vm_compute in H. discriminate H.
Qed.

Lemma expansion_is_per_parent_witness :
  exists items ps,
    Forall2 (fetched hn) [item_url 1; item_url 2] items /\
    Forall2 (expands_to no_other
               (fun us => async_fetch_urls hn no_other leftmost us (2 - 1)))
      items ps /\
    [item_url 1; item_url 2; item_url 3; item_url 5; item_url 4]
    = ([item_url 1; item_url 2] ++ List.concat (map fst ps))%list /\
    [story 1 [3]; story 2 [4]; story 3 [5]; story 5 []; story 4 []]
    = (items ++ List.concat (map snd ps))%list.
Proof.
  apply (proj1 (expansion_is_per_parent hn no_other leftmost
                  [item_url 1; item_url 2] 2 _ _ ltac:(lia))).
  vm_compute. reflexivity.
Defined.

Lemma fetch_failure_propagates_witness :
  exists e',
    outcome (async_fetch_urls hn no_other leftmost [item_url 9] 1) = inl e' /\
    (exists u',
       In u' (requests (async_fetch_urls hn no_other leftmost [item_url 9] 1))
       /\ hn u' = inl e') /\
    ((forall u' e'',
        In u' (requests (async_fetch_urls hn no_other leftmost [item_url 9] 1))
        -> hn u' = inl e'' -> e'' = TimeoutError) -> e' = TimeoutError).
Proof.
  apply (fetch_failure_propagates hn no_other leftmost leftmost_in
           [item_url 9] 1 (item_url 7) TimeoutError).
  - vm_compute. right. left. reflexivity.
  - vm_compute. reflexivity.
Defined.

Lemma child_urls_first_non_empty_witness :
  child_urls no_other user_pg
  = inr (map (fun kid => ITEM_URL_format (py_str no_other kid))
           [JNum 4; JNum 5]).
Proof.
  apply (child_urls_first_non_empty no_other
           [("id", JStr "pg"); ("kids", JArr []);
            ("submitted", JArr [JNum 4; JNum 5])] [] [JNum 4; JNum 5]
           eq_refl eq_refl).
  reflexivity.
Defined.

Lemma budget_zero_is_batch_witness :
  exists items,
    async_fetch_urls hn no_other leftmost [item_url 1; item_url 2] 0
    = ([item_url 1; item_url 2], inr items) /\
    List.length items = 2%nat /\
    forall i u, nth_error [item_url 1; item_url 2] i = Some u ->
      exists j, nth_error items i = Some j /\ hn u = inr j.
Proof.
  apply (budget_zero_is_batch hn no_other leftmost [item_url 1; item_url 2]).
  repeat constructor.
  - exists (story 1 [3]). vm_compute. reflexivity.
  - exists (story 2 [4]). vm_compute. reflexivity.
Defined.

Lemma childless_batch_not_extended_witness :
  async_fetch_urls hn no_other leftmost
    [item_url 4; item_url 10; item_url 8] 3
  = ([item_url 4; item_url 10; item_url 8], inr [story 4 []; JNull; JObj []])
  /\ List.length [story 4 []; JNull; JObj []]
     = List.length [item_url 4; item_url 10; item_url 8].
Proof.
  apply (childless_batch_not_extended hn no_other leftmost
           [item_url 4; item_url 10; item_url 8]
           [story 4 []; JNull; JObj []] 3).
  - lia.
  - repeat constructor; vm_compute; reflexivity.
  - repeat constructor.
Defined.

Lemma absent_item_kept_not_expanded_witness :
  (forall log out,
     async_fetch_urls hn no_other leftmost [item_url 1; item_url 10] 2
     = (log, inr out) -> nth_error out 1 = Some JNull) /\
  (forall rec new_items pre post,
     expand_items no_other rec new_items (pre ++ JNull :: post)
     = expand_items no_other rec new_items (pre ++ post)) /\
  async_fetch_urls hn no_other leftmost [item_url 10] 2
  = ([item_url 10], inr [JNull]).
Proof.
  apply (absent_item_kept_not_expanded hn no_other leftmost
           [item_url 1; item_url 10] 2 1 (item_url 10)).
  - reflexivity.
  - vm_compute. reflexivity.
Defined.

Lemma batch_is_prefix_witness :
  exists items l rest,
    Forall2 (fetched hn) [item_url 1; item_url 2] items /\
    firstn (List.length [item_url 1; item_url 2])
      [story 1 [3]; story 2 [4]; story 3 [5]; story 5 []; story 4 []]
    = items /\
    [story 1 [3]; story 2 [4]; story 3 [5]; story 5 []; story 4 []]
    = (items ++ rest)%list /\
    [item_url 1; item_url 2; item_url 3; item_url 5; item_url 4]
    = ([item_url 1; item_url 2] ++ l)%list /\
    Forall2 (fetched hn) l rest /\
    (2 <= 5)%nat.
Proof.
  apply (batch_is_prefix hn no_other leftmost [item_url 1; item_url 2] 2).
  vm_compute. reflexivity.
Defined.

Lemma negative_budget_is_zero_witness :
  async_fetch_urls hn no_other leftmost [item_url 1] (-1)
  = async_fetch_urls hn no_other leftmost [item_url 1] 0 /\
  async_fetch_urls hn no_other leftmost [item_url 1] (-1)
  = gather hn leftmost [item_url 1].
Proof.
  apply (negative_budget_is_zero hn no_other leftmost [item_url 1] (-1)).
  lia.
Defined.

Lemma empty_object_kept_not_expanded_witness :
  (forall log out,
     async_fetch_urls hn no_other leftmost [item_url 1; item_url 8] 1
     = (log, inr out) -> nth_error out 1 = Some (JObj [])) /\
  (forall rec new_items pre post,
     expand_items no_other rec new_items (pre ++ JObj [] :: post)
     = expand_items no_other rec new_items (pre ++ post) /\
     expand_items no_other rec new_items (pre ++ JObj [] :: post)
     = expand_items no_other rec new_items (pre ++ JNull :: post)) /\
  async_fetch_urls hn no_other leftmost [item_url 8] 1
  = ([item_url 8], inr [JObj []]).
Proof.
  apply (empty_object_kept_not_expanded hn no_other leftmost
           [item_url 1; item_url 8] 1 1 (item_url 8)).
  - lia.
  - reflexivity.
  - vm_compute. reflexivity.
Defined.

Lemma one_item_per_request_witness :
  Forall2 (fetched hn)
    [item_url 1; item_url 2; item_url 3; item_url 5; item_url 4]
    [story 1 [3]; story 2 [4]; story 3 [5]; story 5 []; story 4 []] /\
  5%nat = 5%nat.
Proof.
  apply (one_item_per_request hn no_other leftmost
           [item_url 1; item_url 2] 2).
  vm_compute. reflexivity.
Defined.

Lemma failed_batch_fetches_no_child_witness :
  requests (async_fetch_urls hn no_other leftmost [item_url 1; item_url 7] 2)
  = [item_url 1; item_url 7] /\
  exists e',
    outcome (async_fetch_urls hn no_other leftmost [item_url 1; item_url 7] 2)
    = inl e'.
Proof.
  apply (failed_batch_fetches_no_child hn no_other leftmost
           [item_url 1; item_url 7] 2 (item_url 7) TimeoutError).
  - right. left. reflexivity.
  - vm_compute. reflexivity.
Defined.

Lemma expansion_of_concatenation_witness :
  async_fetch_urls hn no_other leftmost ([item_url 1] ++ [item_url 2]) 2
  = ((([item_url 1] ++ [item_url 2]) ++ [item_url 3; item_url 5]
      ++ [item_url 4])%list,
     inr (([story 1 [3]] ++ [story 2 [4]]) ++ [story 3 [5]; story 5 []]
          ++ [story 4 []])%list).
Proof.
  apply (expansion_of_concatenation hn no_other leftmost).
  - repeat constructor.
  - repeat constructor.
  - vm_compute. reflexivity.
  - vm_compute. reflexivity.
Defined.

Lemma non_dict_item_raises_witness :
  async_fetch_urls hn_odd no_other leftmost
    [item_url 4; item_url 20; item_url 1] 0
  = ([item_url 4; item_url 20; item_url 1],
     inr ([story 4 []] ++ JNum 5 :: [story 1 [3]])%list) /\
  (0 < 1 ->
   async_fetch_urls hn_odd no_other leftmost
     [item_url 4; item_url 20; item_url 1] 1
   = ([item_url 4; item_url 20; item_url 1], inl AttributeError)).
Proof.
  apply (non_dict_item_raises hn_odd no_other leftmost).
  - repeat constructor.
  - repeat constructor.
  - reflexivity.
  - discriminate.
Defined.

Lemma non_iterable_kids_raise_witness :
  async_fetch_urls hn_odd no_other leftmost [item_url 21] 1
  = ([item_url 21], inl TypeError).
Proof.
  apply (non_iterable_kids_raise hn_odd no_other leftmost
           [item_url 21] [] odd_kids [] 1).
  - lia.
  - repeat constructor.
  - constructor.
  - left. exists 3. split; [discriminate | reflexivity].
Defined.

Lemma user_then_submissions_witness :
  get_user_items hn_odd no_other leftmost false "pg" 1
  = (true,
     (USER_URL_format "pg" :: map item_url [4; 5],
      inr (user_pg :: [story 4 []; story 5 []]))) /\
  (forall name recursive,
     get_user_items hn_odd no_other leftmost true name recursive
     = (true, ([], inl RuntimeError))) /\
  (forall urls recursive,
     fetch_urls hn_odd no_other leftmost true urls recursive
     = (true, ([], inl RuntimeError))) /\
  (forall urls recursive log e,
     async_fetch_urls hn_odd no_other leftmost urls recursive
     = (log, inl e) ->
     fetch_urls hn_odd no_other leftmost false urls recursive
     = (false, (log, inl e))).
Proof.
  apply (user_then_submissions hn_odd no_other leftmost "pg"
           [("id", JStr "pg"); ("kids", JArr []);
            ("submitted", JArr [JNum 4; JNum 5])] [4; 5]).
  - reflexivity.
  - reflexivity.
  - reflexivity.
  - repeat constructor.
Defined.

Lemma main_prints_request_count_witness :
  main hn_odd no_other leftmost (Some "pg") 1
  = ([USER_URL_format "pg"; item_url 4; item_url 5],
     inr ["fetched 3 posts"]) /\
  hd_error [USER_URL_format "pg"; item_url 4; item_url 5]
  = Some (USER_URL_format "pg").
Proof.
  apply (proj1 (main_prints_request_count hn_odd no_other leftmost "pg" 1
                  ltac:(discriminate))
           [USER_URL_format "pg"; item_url 4; item_url 5]
           [user_pg; story 4 []; story 5 []]).
  vm_compute. reflexivity.
Defined.

Lemma smaller_budget_returns_less_witness :
  exists log out,
    async_fetch_urls hn no_other leftmost [item_url 1; item_url 2] 1
    = (log, inr out) /\
    subseq log [item_url 1; item_url 2; item_url 3; item_url 5; item_url 4]
    /\ subseq out
         [story 1 [3]; story 2 [4]; story 3 [5]; story 5 []; story 4 []]
    /\ (List.length out <= 5)%nat.
Proof.
  apply (smaller_budget_returns_less hn no_other leftmost
           [item_url 1; item_url 2] 1 2).
  - lia.
  - vm_compute. reflexivity.
Defined.

Lemma one_level_is_level_order_witness :
  exists items cs kids,
    Forall2 (fetched hn) [item_url 1; item_url 2] items /\
    next_level no_other items = inr cs /\
    Forall2 (fetched hn) cs kids /\
    [item_url 1; item_url 2; item_url 3; item_url 4]
    = ([item_url 1; item_url 2] ++ cs)%list /\
    [story 1 [3]; story 2 [4]; story 3 [5]; story 4 []]
    = (items ++ kids)%list /\
    level_order_expand hn no_other leftmost 1 [item_url 1; item_url 2]
    = ([item_url 1; item_url 2; item_url 3; item_url 4],
       inr [story 1 [3]; story 2 [4]; story 3 [5]; story 4 []]).
Proof.
  apply (one_level_is_level_order hn no_other leftmost
           [item_url 1; item_url 2]).
  vm_compute. reflexivity.
Defined.

Lemma requests_stop_at_failure_witness :
  exists l1 l2,
    [item_url 9; item_url 7] = (l1 ++ l2)%list /\
    Forall (answered hn) l1 /\
    (((exists e0 es,
         raised (map hn l2) = e0 :: es /\ TimeoutError = leftmost e0 es) /\
      ((l1 = [] /\ l2 = [item_url 9]) \/
       exists u item,
         In u l1 /\ hn u = inr item /\ truthy item = true /\
         child_urls no_other item = inr l2)) \/
     (l2 = [] /\
      exists u item,
        In u l1 /\ hn u = inr item /\ truthy item = true /\
        child_urls no_other item = inl TimeoutError)).
Proof.
  apply (requests_stop_at_failure hn no_other leftmost [item_url 9] 1).
  vm_compute. reflexivity.
Defined.

Lemma extra_level_adds_nothing_witness :
  async_fetch_urls hn no_other leftmost [item_url 3] 5
  = ([item_url 3; item_url 5], inr [story 3 [5]; story 5 []]).
Proof.
  apply (extra_level_adds_nothing hn no_other leftmost [item_url 3] 1 5
           [item_url 3; item_url 5] [story 3 [5]; story 5 []]
           [item_url 3; item_url 5] [story 3 [5]; story 5 []]).
  - lia.
  - vm_compute. reflexivity.
  - vm_compute. reflexivity.
  - reflexivity.
  - lia.
Defined.

Lemma every_occurrence_fetched_and_expanded_witness :
  async_fetch_urls hn_dup no_other leftmost [item_url 40] 1
  = ([item_url 40; item_url 5; item_url 5],
     inr [story 40 [5; 5]; story 5 []; story 5 []]) /\
  async_fetch_urls hn_dup no_other leftmost
    [item_url 3; item_url 40; item_url 3] 1
  = ([item_url 3; item_url 40; item_url 3;
      item_url 5; item_url 5; item_url 5; item_url 5],
     inr [story 3 [5]; story 40 [5; 5]; story 3 [5];
          story 5 []; story 5 []; story 5 []; story 5 []]).
Proof.
  split.
  - apply (proj1 (proj2 (every_occurrence_fetched_and_expanded
                           hn_dup no_other leftmost 1))
             (item_url 40) [("id", JNum 40); ("kids", JArr [JNum 5; JNum 5])]
             [JNum 5; JNum 5] [] [item_url 5; item_url 5]
             [story 5 []; story 5 []]).
    + lia.
    + vm_compute. reflexivity.
    + reflexivity.
    + reflexivity.
    + vm_compute. reflexivity.
  - apply (proj1 (every_occurrence_fetched_and_expanded
                    hn_dup no_other leftmost 1)
             [ {| occ_url := item_url 3; occ_requests := [item_url 5];
                  occ_item := story 3 [5]; occ_items := [story 5 []] |};
               {| occ_url := item_url 40;
                  occ_requests := [item_url 5; item_url 5];
                  occ_item := story 40 [5; 5];
                  occ_items := [story 5 []; story 5 []] |};
               {| occ_url := item_url 3; occ_requests := [item_url 5];
                  occ_item := story 3 [5]; occ_items := [story 5 []] |} ]).
    repeat constructor.
Defined.

(** With two fetches of one batch failing in different ways, the call
    raises one exception only: whichever the join reports, the other
    failed fetch raised an error that the call does not raise. *)
Lemma one_of_two_failures_not_raised :
  (In (item_url 31)
     (requests (async_fetch_urls hn_down no_other leftmost
                  [item_url 30; item_url 31] 0)) /\
   hn_down (item_url 31) = inl TransportError /\
   outcome (async_fetch_urls hn_down no_other leftmost
              [item_url 30; item_url 31] 0) = inl TimeoutError /\
   outcome (async_fetch_urls hn_down no_other leftmost
              [item_url 30; item_url 31] 0) <> inl TransportError) /\
  (In (item_url 30)
     (requests (async_fetch_urls hn_down no_other rightmost
                  [item_url 30; item_url 31] 0)) /\
   hn_down (item_url 30) = inl TimeoutError /\
   outcome (async_fetch_urls hn_down no_other rightmost
              [item_url 30; item_url 31] 0) = inl TransportError /\
   outcome (async_fetch_urls hn_down no_other rightmost
              [item_url 30; item_url 31] 0) <> inl TimeoutError) /\
  (forall first_raised,
   exists u e,
     In u (requests (async_fetch_urls hn_down no_other first_raised
                       [item_url 30; item_url 31] 0)) /\
     hn_down u = inl e /\
     outcome (async_fetch_urls hn_down no_other first_raised
                [item_url 30; item_url 31] 0) <> inl e).
Proof.
  assert (H30 : hn_down (item_url 30) = inl TimeoutError)
    by (vm_compute; reflexivity).
  assert (H31 : hn_down (item_url 31) = inl TransportError)
    by (vm_compute; reflexivity).
  assert (Hreq : forall first_raised,
             requests (async_fetch_urls hn_down no_other first_raised
                         [item_url 30; item_url 31] 0)
             = [item_url 30; item_url 31]) by reflexivity.
  assert (Hout : forall first_raised,
             outcome (async_fetch_urls hn_down no_other first_raised
                        [item_url 30; item_url 31] 0)
             = inl (first_raised TimeoutError [TransportError])).
  { intros first_raised. unfold async_fetch_urls, outcome.
    change (Z.to_nat 0) with 0%nat. rewrite expand_0. unfold gather.
    cbn [map]. rewrite H30, H31. reflexivity. }
  split; [| split].
  - rewrite Hreq, Hout. split; [right; left; reflexivity |].
    split; [exact H31 |]. split; [reflexivity | discriminate].
  - rewrite Hreq, Hout. split; [left; reflexivity |].
    split; [exact H30 |]. split; [reflexivity | discriminate].
  - intros first_raised. rewrite Hreq, Hout.
    destruct (first_raised TimeoutError [TransportError]) eqn:E.
    1: exists (item_url 31), TransportError;
       split; [right; left; reflexivity | split; [exact H31 | discriminate]].
    all: exists (item_url 30), TimeoutError;
      split; [left; reflexivity | split; [exact H30 | discriminate]].
Qed.
